(** * sass.py: the [compile] dispatcher and the [and_join] helper

    A shallow embedding of [src/sass.py] (libsass-python 0.3.0, Python 2).

    The module is dynamically typed glue code around a C extension, so the
    embedding has three layers:

    - [Py]: the Python values the functions can receive, exceptions with
      their class hierarchy, and the handful of interpreter operations the
      module uses ([len], indexing, iteration, [+] on [str], [str.join],
      tuple unpacking, [isinstance]);
    - [and_join], a pure function on values that may raise;
    - [compile], written in a state-and-exception monad whose state holds
      the [kwargs] dictionary (mutated by [kwargs.pop]) and the log of the
      calls made to the native entry points. *)

From stdpp Require Import base option list strings gmap pretty.

Open Scope string_scope.
Open Scope list_scope.
Local Set Warnings "-register-all".

(** ** Python values and exceptions *)

Module Py.

(** The values that [compile] and [and_join] are modelled on.  [VStr] is the
    byte string [str], the instance of [basestring] the module is written
    for; [unicode] strings are left out.  [VSet] and [VDict] list their
    elements in the iteration order of the collection; dictionaries are the
    string-keyed ones the module handles ([kwargs], [OUTPUT_STYLES]). *)
Inductive value : Type :=
| VNone
| VBool (b : bool)
| VInt (n : Z)
| VStr (s : string)
| VTuple (items : list value)
| VList (items : list value)
| VSet (items : list value)
| VDict (entries : list (string * value)).

(** Exception classes met in the module.  [CompileError] is declared in
    sass.py as a subclass of [ValueError]. *)
Inductive exn_class : Type :=
| TypeError | ValueError | KeyError | IndexError | IOError | CompileError.

(** An exception instance: its class and its single constructor argument. *)
Record exn : Type := Exn { exn_cls : exn_class; exn_arg : value }.

(** [issubclass c d], as [except d:] tests it. *)
Definition issubclass (c d : exn_class) : bool :=
  match c, d with
  | CompileError, ValueError => true
  | TypeError, TypeError | ValueError, ValueError | KeyError, KeyError
  | IndexError, IndexError | IOError, IOError
  | CompileError, CompileError => true
  | _, _ => false
  end.

(** The outcome of evaluating an expression or a call. *)
Inductive result (A : Type) : Type :=
| Ok (a : A)
| Raise (e : exn).
Global Arguments Ok {A} a.
Global Arguments Raise {A} e.

Global Instance result_ret : MRet result := λ A, @Ok A.
Global Instance result_bind : MBind result := λ A B f r,
  match r with
  | Ok a => f a
  | Raise e => Raise e
  end.

Definition raise {A} (c : exn_class) (msg : string) : result A :=
  Raise (Exn c (VStr msg)).

(** [type(v).__name__] *)
Definition type_name (v : value) : string :=
  match v with
  | VNone => "NoneType"
  | VBool _ => "bool"
  | VInt _ => "int"
  | VStr _ => "str"
  | VTuple _ => "tuple"
  | VList _ => "list"
  | VSet _ => "set"
  | VDict _ => "dict"
  end.

(** [isinstance(v, basestring)] *)
Definition is_basestring (v : value) : bool :=
  match v with
  | VStr _ => true
  | _ => false
  end.

(** [isinstance(v, collections.Sequence)].  Python 2's [_abcoll] registers
    [tuple] and [basestring] on [Sequence], and [list] on [MutableSequence],
    so a [str] is a [Sequence] too. *)
Definition is_sequence (v : value) : bool :=
  match v with
  | VStr _ | VTuple _ | VList _ => true
  | _ => false
  end.

(** The characters of a string, each a one-character string; [chars] has
    them as [str] values. *)
Fixpoint letters (s : string) : list string :=
  match s with
  | EmptyString => []
  | String c s' => String c EmptyString :: letters s'
  end.

Definition chars (s : string) : list value := VStr <$> letters s.

(** [len(v)] *)
Definition len (v : value) : result nat :=
  match v with
  | VStr s => Ok (String.length s)
  | VTuple l | VList l | VSet l => Ok (length l)
  | VDict d => Ok (length d)
  | _ => raise TypeError ("object of type '" +:+ type_name v +:+ "' has no len()")
  end.

(** The items [iter(v)] yields, in order. *)
Definition iter (v : value) : result (list value) :=
  match v with
  | VStr s => Ok (chars s)
  | VTuple l | VList l | VSet l => Ok l
  | VDict d => Ok (VStr <$> d.*1)
  | _ => raise TypeError ("'" +:+ type_name v +:+ "' object is not iterable")
  end.

(** [v[0]].  The dictionaries modelled have string keys only, so 0 is not
    one of their keys. *)
Definition getitem0 (v : value) : result value :=
  match v with
  | VStr s =>
      match chars s with
      | c :: _ => Ok c
      | [] => raise IndexError "string index out of range"
      end
  | VTuple l =>
      match l with
      | x :: _ => Ok x
      | [] => raise IndexError "tuple index out of range"
      end
  | VList l =>
      match l with
      | x :: _ => Ok x
      | [] => raise IndexError "list index out of range"
      end
  | VSet _ => raise TypeError "'set' object does not support indexing"
  | VDict _ => Raise (Exn KeyError (VInt 0))
  | _ => raise TypeError
           ("'" +:+ type_name v +:+ "' object has no attribute '__getitem__'")
  end.

(** [a + b], for the one use the module makes of it: string concatenation.
    The left operand is a [str] at every [+] of sass.py. *)
Definition add (a b : value) : result value :=
  match a, b with
  | VStr x, VStr y => Ok (VStr (x +:+ y))
  | VStr _, _ =>
      raise TypeError
        ("cannot concatenate 'str' and '" +:+ type_name b +:+ "' objects")
  | _, _ =>
      raise TypeError
        ("unsupported operand type(s) for +: '" +:+ type_name a +:+
         "' and '" +:+ type_name b +:+ "'")
  end.

(** The check [str.join] makes on its items, in order: each has to be a
    string. *)
Fixpoint join_items (i : nat) (items : list value) : result (list string) :=
  match items with
  | [] => Ok []
  | VStr s :: rest => ss ← join_items (S i) rest; Ok (s :: ss)
  | v :: _ =>
      raise TypeError
        ("sequence item " +:+ pretty i +:+ ": expected string, " +:+
         type_name v +:+ " found")
  end.

(** [sep.join(v)] *)
Definition join (sep : string) (v : value) : result value :=
  items ← iter v;
  ss ← join_items 0 items;
  Ok (VStr (String.concat sep ss)).

(** [a, b = v] *)
Definition unpack2 (v : value) : result (value * value) :=
  items ← iter v;
  match items with
  | [a; b] => Ok (a, b)
  | [] => raise ValueError "need more than 0 values to unpack"
  | [_] => raise ValueError "need more than 1 value to unpack"
  | _ => raise ValueError "too many values to unpack"
  end.

(** [enumerate(items)] *)
Definition enumerate {A} (items : list A) : list (nat * A) :=
  zip (seq 0 (length items)) items.

(** Running a list of computations in order, stopping at the first that
    raises: how a generator expression is drained. *)
Fixpoint collect {A} (l : list (result A)) : result (list A) :=
  match l with
  | [] => Ok []
  | r :: rest => a ← r; l' ← collect rest; Ok (a :: l')
  end.

End Py.

Import Py.

(** ** [and_join] *)

(** [and_join(strings)], sass.py lines 174-192.  The generator expression
    given to [', '.join] is drained first (an item that cannot be prefixed
    with ['and '] raises there), then [join] checks the items. *)
Definition and_join (strings : value) : result value :=
  n ← len strings;
  let last := (Z.of_nat n - 1)%Z in
  if (last =? 0)%Z then getitem0 strings
  else if (last <? 0)%Z then Ok (VStr "")
  else
    items ← iter strings;
    let iterator := enumerate items in
    gen ← collect
      ((λ '(i, s), if (Z.of_nat i =? last)%Z then add (VStr "and ") s else Ok s)
         <$> iterator);
    join ", " (VList gen).

(** ** The monad [compile] runs in *)

(** A call to one of the three entry points of the [_sass] extension, with
    the positional arguments it is given. *)
Inductive native_call : Type :=
| CompileString (string output_style include_paths image_path : value)
| CompileFilename (filename output_style include_paths image_path : value)
| CompileDirname
    (search_path output_path output_style include_paths image_path : value).

(** What a run of [compile] can change: its own [kwargs] dictionary, which
    [kwargs.pop] mutates, and the native calls made so far, oldest first. *)
Record state : Type := State {
  kwargs : gmap string value;
  calls : list native_call
}.

Definition M (A : Type) : Type := state → result A * state.

Global Instance M_ret : MRet M := λ A a st, (Ok a, st).
Global Instance M_bind : MBind M := λ A B f m st,
  match m st with
  | (Ok a, st') => f a st'
  | (Raise e, st') => (Raise e, st')
  end.

(** An expression without effect on the state. *)
Definition lift {A} (r : result A) : M A := λ st, (r, st).

(** [raise cls(arg)] *)
Definition throw {A} (c : exn_class) (arg : value) : M A :=
  lift (Raise (Exn c arg)).

(** [key in kwargs] *)
Definition kwargs_contains (key : string) : M bool := λ st,
  (Ok (bool_decide (is_Some (kwargs st !! key))), st).

(** [kwargs.pop(key)] *)
Definition kwargs_pop (key : string) : M value := λ st,
  match kwargs st !! key with
  | Some v => (Ok v, State (delete key (kwargs st)) (calls st))
  | None => (Raise (Exn KeyError (VStr key)), st)
  end.

(** [try: x = body / except cls: x = handler / else: x = orelse(x)].
    An exception of [handler] or [orelse] is not caught. *)
Definition try_except_else {A B}
    (body : M A) (cls : exn_class) (handler : M B) (orelse : A → M B) : M B :=
  λ st,
    match body st with
    | (Ok a, st') => orelse a st'
    | (Raise e, st') =>
        if issubclass (exn_cls e) cls then handler st' else (Raise e, st')
    end.

(** [try: x = body / except cls: x = handler] *)
Definition try_except {A} (body : M A) (cls : exn_class) (handler : M A) : M A :=
  try_except_else body cls handler mret.

(** [for x in items: acc = step(acc, x)] *)
Fixpoint for_each {A B} (items : list A) (acc : B) (step : B → A → M B) : M B :=
  match items with
  | [] => mret acc
  | x :: rest => acc' ← step acc x; for_each rest acc' step
  end.

(** A [set] of strings, kept as the list of its elements in the order they
    were first added; [set_add] is [set.add]. *)
Definition set_add (x : string) (s : list string) : list string :=
  if bool_decide (x ∈ s) then s else s ++ [x].

(** [d[key]] on a string-keyed dictionary. *)
Fixpoint getitem {A} (d : list (string * A)) (key : string) : option A :=
  match d with
  | [] => None
  | (k, a) :: rest => if bool_decide (k = key) then Some a else getitem rest key
  end.

(** #: MODES = set(['string', 'filename', 'dirname']) *)
Definition MODES : list string := ["string"; "filename"; "dirname"].

(** ** [compile] *)

(** What sass.py imports.  [_sass] supplies [OUTPUT_STYLES] (style name to
    integer flag, here in the iteration order of the dictionary) and the
    three entry points, each returning a [(success, payload)] pair.
    [isfile] is [os.path.isfile], [repr] the builtin, and [set_iter] gives
    the order in which a set is iterated, from the order its elements were
    added in. *)
Class Imports : Type := {
  OUTPUT_STYLES : list (string * Z);
  compile_string : value → value → value → value → bool * value;
  compile_filename : value → value → value → value → bool * value;
  compile_dirname : value → value → value → value → value → bool * value;
  isfile : value → result bool;
  repr : value → string;
  set_iter : list string → list string
}.

Section Compile.
Context `{!Imports}.

(** What the entry point named by a call returns. *)
Definition native_result (c : native_call) : bool * value :=
  match c with
  | CompileString a b c d => compile_string a b c d
  | CompileFilename a b c d => compile_filename a b c d
  | CompileDirname a b c d e => compile_dirname a b c d e
  end.

(** Making a native call: it is logged and its pair is returned. *)
Definition call (c : native_call) : M (bool * value) := λ st,
  (Ok (native_result c), State (kwargs st) (calls st ++ [c])).

(** [str(v)], as a [{0}] field of [str.format] renders [v]. *)
Definition str (v : value) : string :=
  match v with
  | VStr s => s
  | _ => repr v
  end.

(** A set as the value [and_join] receives. *)
Definition set_value (s : list string) : value := VSet (VStr <$> set_iter s).

(** [OUTPUT_STYLES] as the value [and_join] receives. *)
Definition OUTPUT_STYLES_value : value :=
  VDict (prod_map id VInt <$> OUTPUT_STYLES).

(** Lines 110-118: which mode keywords are present. *)
Definition select_modes : M (list string) :=
  modes ← for_each (set_iter MODES) [] (λ modes mode_name,
    present ← kwargs_contains mode_name;
    mret (if present : bool then set_add mode_name modes else modes));
  match modes with
  | [] =>
      msg ← lift (j ← and_join (set_value MODES);
                  add (VStr "choose one at least in ") j);
      throw TypeError msg
  | _ =>
      if bool_decide (1 < length modes) then
        msg ← lift (j ← and_join (set_value modes);
                    add j (VStr (" are exclusive each other; " +:+
                                 "cannot be used at a time")));
        throw TypeError msg
      else mret modes
  end.

(** Lines 119-130: [output_style], from its name to its flag. *)
Definition pop_output_style : M value :=
  output_style ← try_except (kwargs_pop "output_style") KeyError
                   (mret (VStr "nested"));
  match output_style with
  | VStr name =>
      match getitem OUTPUT_STYLES name with
      | Some flag => mret (VInt flag)
      | None =>
          names ← lift (and_join OUTPUT_STYLES_value);
          throw CompileError
            (VStr (name +:+ " is unsupported output_style; choose one of " +:+
                   str names))
      end
  | _ =>
      throw TypeError
        (VStr ("output_style must be a string, not " +:+ repr output_style))
  end.

(** Lines 131-141: [include_paths], joined with [':']. *)
Definition pop_include_paths : M value :=
  try_except_else (kwargs_pop "include_paths") KeyError
    (mret (VStr ""))
    (λ include_paths,
       if is_sequence include_paths then lift (join ":" include_paths)
       else if negb (is_basestring include_paths) then
         throw TypeError
           (VStr ("include_paths must be a sequence of strings, or " +:+
                  "a colon-separated string, not " +:+ repr include_paths))
       else mret include_paths).

(** Lines 142-149: [image_path]. *)
Definition pop_image_path : M value :=
  try_except_else (kwargs_pop "image_path") KeyError
    (mret (VStr "."))
    (λ image_path,
       if negb (is_basestring image_path) then
         throw TypeError
           (VStr ("image_path must be a string, not " +:+ repr image_path))
       else mret image_path).

(** Lines 150-168: the call to the entry point of the selected mode. *)
Definition dispatch (modes : list string)
    (output_style include_paths image_path : value) : M (bool * value) :=
  if bool_decide ("string" ∈ modes) then
    string ← kwargs_pop "string";
    call (CompileString string output_style include_paths image_path)
  else if bool_decide ("filename" ∈ modes) then
    filename ← kwargs_pop "filename";
    is_file ← lift (isfile filename);
    if negb is_file then
      throw IOError (VStr (repr filename +:+ " seems not a file"))
    else call (CompileFilename filename output_style include_paths image_path)
  else if bool_decide ("dirname" ∈ modes) then
    '(search_path, output_path) ←
      try_except (dirname ← kwargs_pop "dirname"; lift (unpack2 dirname))
        ValueError
        (throw ValueError
           (VStr "dirname must be a pair of (source_dir, output_dir)"));
    call (CompileDirname search_path output_path
            output_style include_paths image_path)
  else throw TypeError (VStr "something went wrong").

(** Lines 169-171: the pair of the entry point, returned or raised. *)
Definition result_of (p : bool * value) : result value :=
  let '(s, v) := p in
  if s then Ok v else Raise (Exn CompileError v).

(** Lines 131-171: the run from [include_paths] on, once the modes and the
    style flag are known. *)
Definition compile_from_include_paths
    (modes : list string) (output_style : value) : M value :=
  include_paths ← pop_include_paths;
  image_path ← pop_image_path;
  p ← dispatch modes output_style include_paths image_path;
  lift (result_of p).

(** Lines 110-171, on the state. *)
Definition compile_body : M value :=
  modes ← select_modes;
  output_style ← pop_output_style;
  compile_from_include_paths modes output_style.

(** [compile], called with the keyword arguments [kw]: what it returns or
    raises, and the native calls it made. *)
Definition compile (kw : gmap string value) : result value * list native_call :=
  let '(r, st) := compile_body (State kw []) in (r, calls st).

(** *** Vocabulary of the statements *)

(** The mode keywords a call was given, in the order of [MODES]. *)
Definition present_modes (kw : gmap string value) : list string :=
  filter (λ mode_name, is_Some (kw !! mode_name)) MODES.

(** The call selects mode [m] alone, with the value [v]. *)
Definition only_mode (kw : gmap string value) (m : string) (v : value) : Prop :=
  present_modes kw = [m] ∧ kw !! m = Some v.

(** The three options as lines 119-149 normalise them: the style flag, the
    joined include paths and the image path, or the error of the first
    option that does not validate. *)
Definition options (kw : gmap string value) : result (value * value * value) :=
  fst ((output_style ← pop_output_style;
        include_paths ← pop_include_paths;
        image_path ← pop_image_path;
        mret (output_style, include_paths, image_path)) (State kw [])).

End Compile.

(** The keyword options [compile] knows. *)
Definition recognized : list string :=
  ["string"; "filename"; "dirname";
   "output_style"; "include_paths"; "image_path"].

(** Two states agree when they have logged the same native calls and hold the
    same values under the recognized keywords. *)
Definition agree (st1 st2 : state) : Prop :=
  calls st1 = calls st2 ∧
  ∀ key, key ∈ recognized → kwargs st1 !! key = kwargs st2 !! key.

(** A computation is insensitive to the other keywords when, from states that
    agree, it gives the same outcome and leaves states that agree. *)
Definition insensitive {A} (m : M A) : Prop :=
  ∀ st1 st2, agree st1 st2 →
    (m st1).1 = (m st2).1 ∧ agree (m st1).2 (m st2).2.

(** The keyword arguments left once the three options are popped. *)
Definition stripped (kw : gmap string value) : gmap string value :=
  delete "image_path" (delete "include_paths" (delete "output_style" kw)).

(** The error kinds of the specification.  A usage error is a [TypeError] or
    a plain [ValueError]; a compile error is a [CompileError]. *)
Definition is_usage_error (e : exn) : bool :=
  match exn_cls e with
  | TypeError | ValueError => true
  | _ => false
  end.

Definition is_compile_error (e : exn) : bool :=
  match exn_cls e with
  | CompileError => true
  | _ => false
  end.

Definition is_io_error (e : exn) : bool :=
  match exn_cls e with
  | IOError => true
  | _ => false
  end.

(** A sequence of strings is a [list] or a [tuple] of [str]. *)
Inductive seq_kind : Type := AsList | AsTuple.

Definition strings (k : seq_kind) (l : list string) : value :=
  match k with
  | AsList => VList (VStr <$> l)
  | AsTuple => VTuple (VStr <$> l)
  end.

(** The conjunction the specification describes for three items or more:
    all items joined with [", "], the final one prefixed with ["and "]. *)
Definition conjunction (front : list string) (final : string) : string :=
  String.concat ", " (front ++ ["and " +:+ final]).

(** Modelled from the spec: the mapping [OUTPUT_STYLES] is defined in the
    [_sass] extension, which is not among the sources; its keys are the four
    style names that the specification and the docstring of [compile]
    list. *)
Definition style_names : list string :=
  ["nested"; "expanded"; "compact"; "compressed"].

(** A [list] or a [tuple] of any values. *)
Definition sequence (k : seq_kind) (items : list value) : value :=
  match k with
  | AsList => VList items
  | AsTuple => VTuple items
  end.

(** The option [output_style] is absent, or is the name of a style of
    [OUTPUT_STYLES]. *)
Definition style_valid `{!Imports} (kw : gmap string value) : bool :=
  match kw !! "output_style" with
  | None => true
  | Some (VStr name) => bool_decide (name ∈ OUTPUT_STYLES.*1)
  | Some _ => false
  end.

(** The option [include_paths] is absent, or is a [Sequence] whose items are
    all strings. *)
Definition include_paths_valid (kw : gmap string value) : bool :=
  match kw !! "include_paths" with
  | None => true
  | Some v =>
      is_sequence v &&
      match iter v with
      | Ok items => forallb is_basestring items
      | Raise _ => false
      end
  end.

(** The classes of the exceptions that [compile] raises itself. *)
Definition compile_classes : list exn_class :=
  [TypeError; ValueError; CompileError; IOError].

(** *** A concrete environment to run the model in *)

Module Demo.

Definition styles : list (string * Z) :=
  [("nested", 0%Z); ("expanded", 1%Z); ("compact", 2%Z); ("compressed", 3%Z)].

(** A file system with the one regular file [a.scss]. *)
Definition one_file (path : value) : result bool :=
  match path with
  | VStr p => Ok (bool_decide (p = "a.scss"))
  | _ => raise TypeError "coercing to Unicode: need string or buffer"
  end.

Definition quote (v : value) : string :=
  match v with
  | VStr s => "'" +:+ s +:+ "'"
  | _ => "<" +:+ type_name v +:+ ">"
  end.

(** A compiler that accepts the source [a { b { color: blue; } }] and
    rejects any other. *)
Definition string_compiler (string _ _ _ : value) : bool * value :=
  match string with
  | VStr "a { b { color: blue; } }" => (true, VStr "a b { color: blue; }")
  | _ => (false, VStr "error: unexpected token")
  end.

Definition file_compiler (filename _ _ _ : value) : bool * value :=
  (true, VStr "a b { color: blue; }").

Definition dir_compiler (_ _ _ _ _ : value) : bool * value :=
  (true, VNone).

Definition imports : Imports := {|
  OUTPUT_STYLES := styles;
  compile_string := string_compiler;
  compile_filename := file_compiler;
  compile_dirname := dir_compiler;
  isfile := one_file;
  repr := quote;
  set_iter := id
|}.

(** [compile] in this environment. *)
Definition run : gmap string value → result value * list native_call :=
  @compile imports.

(** [kwargs] from the keywords of a call. *)
Definition kw (l : list (string * value)) : gmap string value := list_to_map l.

End Demo.

(** * Properties *)

(** ** The interpreter operations *)

Lemma join_items_strings i (l : list string) :
  join_items i (VStr <$> l) = Ok l.
Proof.
  revert i. induction l as [|s l IH]; intros i; simpl; [done|].
  by rewrite IH.
Qed.

Lemma join_strings sep (l : list string) :
  join sep (VList (VStr <$> l)) = Ok (VStr (String.concat sep l)).
Proof. unfold join. simpl. by rewrite join_items_strings. Qed.

(** Draining the generator of [and_join] over strings: only the item at
    index [last] is prefixed. *)
Lemma collect_and_prefix (front : list string) (y : string) (a : nat) :
  collect
    ((λ '(i, s),
        if (Z.of_nat i =? Z.of_nat (a + length front))%Z
        then add (VStr "and ") s else Ok s)
       <$> zip (seq a (length (front ++ [y]))) (VStr <$> (front ++ [y])))
  = Ok (VStr <$> (front ++ ["and " +:+ y])).
Proof.
  revert a. induction front as [|x front IH]; intros a.
  - simpl. by rewrite Nat.add_0_r, Z.eqb_refl.
  - simpl.
    destruct (Z.eqb_spec (Z.of_nat a) (Z.of_nat (a + S (length front))));
      [lia|].
    simpl. replace (a + S (length front)) with (S a + length front) by lia.
    by rewrite IH.
Qed.

(** ** [and_join] *)

(** On any collection of two strings or more, whatever its kind. *)
Lemma and_join_many (v : value) (front : list string) (y : string) :
  front ≠ [] →
  len v = Ok (length (front ++ [y])) →
  iter v = Ok (VStr <$> (front ++ [y])) →
  and_join v = Ok (VStr (conjunction front y)).
Proof.
  intros Hne Hlen Hiter. unfold and_join. rewrite Hlen. simpl.
  assert (0 < length front) by (destruct front; [done|simpl; lia]).
  rewrite length_app. simpl.
  destruct (Z.eqb_spec (Z.of_nat (length front + 1) - 1) 0); [lia|].
  destruct (Z.ltb_spec (Z.of_nat (length front + 1) - 1) 0); [lia|].
  rewrite Hiter. simpl. unfold enumerate.
  rewrite length_fmap.
  replace (Z.of_nat (length front + 1) - 1)%Z
    with (Z.of_nat (0 + length front)) by lia.
  rewrite collect_and_prefix. simpl.
  by rewrite join_strings.
Qed.

Lemma len_strings k l : len (strings k l) = Ok (length l).
Proof. destruct k; simpl; by rewrite length_fmap. Qed.

Lemma iter_strings k l : iter (strings k l) = Ok (VStr <$> l).
Proof. by destruct k. Qed.

Lemma and_join_strings_many k front y :
  front ≠ [] →
  and_join (strings k (front ++ [y])) = Ok (VStr (conjunction front y)).
Proof.
  intros. apply and_join_many; auto using len_strings, iter_strings.
Qed.

Lemma and_join_empty k : and_join (strings k []) = Ok (VStr "").
Proof. by destruct k. Qed.

Lemma and_join_single k x : and_join (strings k [x]) = Ok (VStr x).
Proof. by destruct k. Qed.

Lemma snoc_cases {A} (l : list A) : l = [] ∨ ∃ front y, l = front ++ [y].
Proof.
  induction l as [|x l IH] using rev_ind; [by left|right; eauto].
Qed.

(** C5, as amended: and_join of exactly two strings joins them with a comma
    and the conjunction, [a, and b]; the comma is not omitted. *)
Theorem and_join_two (k : seq_kind) (a b : string) :
  and_join (strings k [a; b]) = Ok (VStr (a +:+ ", and " +:+ b)).
Proof.
  exact (and_join_strings_many k [a] b ltac:(done)).
Qed.

(** C5, as stated, fails: and_join(["a", "b"]) is not "a and b". *)
Lemma and_join_two_keeps_comma :
  and_join (VList [VStr "a"; VStr "b"]) = Ok (VStr "a, and b") ∧
  and_join (VList [VStr "a"; VStr "b"]) ≠ Ok (VStr "a and b").
Proof. split; [reflexivity | discriminate]. Qed.

(** C6: and_join gives the empty string for no item, the item itself for
    one item, and for three items or more all items joined with ", ", the
    final one prefixed with "and "; the doctest of four countries holds; and
    on every sequence of strings it returns a string, raising nothing. *)
Theorem and_join_sequences (k : seq_kind) :
  and_join (strings k []) = Ok (VStr "") ∧
  (∀ x, and_join (strings k [x]) = Ok (VStr x)) ∧
  (∀ x1 x2 mid y,
     and_join (strings k (x1 :: x2 :: mid ++ [y]))
     = Ok (VStr (String.concat ", " (x1 :: x2 :: mid ++ ["and " +:+ y])))) ∧
  and_join (strings k ["Korea"; "Japan"; "China"; "Taiwan"])
  = Ok (VStr "Korea, Japan, China, and Taiwan") ∧
  (∀ l, ∃ s, and_join (strings k l) = Ok (VStr s)).
Proof.
  split_and!.
  - apply and_join_empty.
  - apply and_join_single.
  - intros. apply (and_join_strings_many k (x1 :: x2 :: mid) y). done.
  - by destruct k.
  - intros l. destruct (snoc_cases l) as [->|(front & y & ->)].
    + eexists. apply and_join_empty.
    + destruct front as [|x front].
      * eexists. apply and_join_single.
      * eexists. by apply and_join_strings_many.
Qed.

(** On a set of two strings or more [and_join] returns a string. *)
Lemma and_join_set (l : list string) :
  (2 ≤ length l)%nat → ∃ s, and_join (VSet (VStr <$> l)) = Ok (VStr s).
Proof.
  intros Hl. destruct (snoc_cases l) as [->|(front & y & ->)];
    [simpl in Hl; lia|].
  exists (conjunction front y). apply and_join_many.
  - intros ->. simpl in Hl. lia.
  - simpl. by rewrite length_fmap.
  - done.
Qed.

(** The same on a dictionary, whose iteration yields its keys. *)
Lemma and_join_dict (d : list (string * value)) :
  (2 ≤ length d)%nat →
  ∃ front y, d.*1 = front ++ [y] ∧
    and_join (VDict d) = Ok (VStr (conjunction front y)).
Proof.
  intros Hd. destruct (snoc_cases (d.*1)) as [Hnil|(front & y & Hk)].
  - apply (f_equal length) in Hnil. rewrite length_fmap in Hnil.
    simpl in Hnil. lia.
  - exists front, y. split; [done|]. apply and_join_many.
    + intros ->. apply (f_equal length) in Hk. rewrite length_fmap in Hk.
      simpl in Hk. lia.
    + simpl. by rewrite <-Hk, length_fmap.
    + simpl. by rewrite Hk.
Qed.

(** ** The monad *)

Lemma bind_run {A B} (m : M A) (f : A → M B) st :
  (m ≫= f) st =
  match m st with
  | (Ok a, st') => f a st'
  | (Raise e, st') => (Raise e, st')
  end.
Proof. done. Qed.

(** The loop of lines 110-113 reads [kwargs] and leaves the state alone. *)
Lemma for_each_contains (items acc : list string) st :
  for_each items acc (λ modes mode_name,
    present ← kwargs_contains mode_name;
    mret (if present : bool then set_add mode_name modes else modes)) st
  = (Ok (foldl (λ modes mode_name,
            if bool_decide (is_Some (kwargs st !! mode_name))
            then set_add mode_name modes else modes) acc items), st).
Proof.
  revert acc. induction items as [|x items IH]; intros acc; [done|].
  simpl. rewrite bind_run. simpl. apply IH.
Qed.

(** Adding the present ones of distinct names to a set keeps them in order. *)
Lemma foldl_set_add (P : string → Prop) `{!∀ x, Decision (P x)}
    (items acc : list string) :
  NoDup (acc ++ items) →
  foldl (λ modes mode_name,
      if bool_decide (P mode_name)
      then set_add mode_name modes else modes) acc items
  = acc ++ filter P items.
Proof.
  revert acc. induction items as [|x items IH]; intros acc Hnd; simpl.
  - by rewrite app_nil_r.
  - rewrite filter_cons. apply NoDup_app in Hnd as (Hacc & Hdisj & Hitems).
    assert (x ∉ acc) as Hx by (intros Hin; apply (Hdisj _ Hin); left).
    apply NoDup_cons in Hitems as [Hxi Hitems].
    case_bool_decide as HP.
    + rewrite decide_True by done.
      unfold set_add. rewrite bool_decide_eq_false_2 by done.
      rewrite IH; [by rewrite <-app_assoc|].
      apply NoDup_app. split_and!.
      * apply NoDup_app. split_and!; [done| |apply NoDup_singleton].
        intros z Hz ->%list_elem_of_singleton. done.
      * intros z [Hz| ->%list_elem_of_singleton]%elem_of_app Hzi; [|done].
        apply (Hdisj _ Hz). by right.
      * done.
    + rewrite decide_False by done.
      apply IH. apply NoDup_app. split_and!; [done| |done].
      intros z Hz Hzi. apply (Hdisj _ Hz). by right.
Qed.

(** ** [compile]: the steps *)

Section CompileFacts.
Context `{!Imports}.

(** A set is iterated in some order of its elements. *)
Hypothesis set_iter_perm : ∀ s, set_iter s ≡ₚ s.

(** [OUTPUT_STYLES] has the four documented names. *)
Hypothesis OUTPUT_STYLES_names : OUTPUT_STYLES.*1 ≡ₚ style_names.

Lemma NoDup_MODES : NoDup MODES.
Proof. compute_done. Qed.

(** The modes the loop collects are the present ones. *)
Lemma selected_modes st :
  ∃ modes, modes ≡ₚ present_modes (kwargs st) ∧
    for_each (set_iter MODES) [] (λ modes mode_name,
      present ← kwargs_contains mode_name;
      mret (if present : bool then set_add mode_name modes else modes)) st
    = (Ok modes, st).
Proof.
  exists (filter (λ m, is_Some (kwargs st !! m)) (set_iter MODES)). split.
  - unfold present_modes. by rewrite set_iter_perm.
  - rewrite for_each_contains. do 2 f_equal.
    apply (foldl_set_add (λ m, is_Some (kwargs st !! m)) _ []). simpl.
    rewrite set_iter_perm. apply NoDup_MODES.
Qed.

Lemma and_join_set_value (s : list string) :
  (2 ≤ length s)%nat → ∃ j, and_join (set_value s) = Ok (VStr j).
Proof.
  intros Hs. apply and_join_set. by rewrite set_iter_perm.
Qed.

(** Exactly one mode keyword: the check passes with that mode. *)
Lemma select_modes_one st m :
  present_modes (kwargs st) = [m] → select_modes st = (Ok [m], st).
Proof.
  intros Hm. destruct (selected_modes st) as (modes & Hperm & Hrun).
  rewrite Hm in Hperm. apply Permutation_singleton_r in Hperm as ->.
  unfold select_modes. rewrite bind_run, Hrun. done.
Qed.

(** None, or two or more: a [TypeError], and the state is as it was. *)
Lemma select_modes_error st :
  length (present_modes (kwargs st)) ≠ 1%nat →
  ∃ msg, select_modes st = (Raise (Exn TypeError (VStr msg)), st).
Proof.
  intros Hlen. destruct (selected_modes st) as (modes & Hperm & Hrun).
  rewrite <-Hperm in Hlen.
  unfold select_modes. rewrite bind_run, Hrun.
  destruct modes as [|m1 [|m2 modes]]; [|done|].
  - destruct (and_join_set_value MODES) as [j Hj]; [simpl; lia|].
    rewrite bind_run. unfold lift. rewrite Hj. simpl. eauto.
  - destruct (and_join_set_value (m1 :: m2 :: modes)) as [j Hj];
      [simpl; lia|].
    rewrite bool_decide_eq_true_2 by (simpl; lia).
    rewrite bind_run. unfold lift. rewrite Hj. simpl. eauto.
Qed.

(** Whatever it answers, the mode check leaves the state alone. *)
Lemma select_modes_state st : (select_modes st).2 = st.
Proof.
  unfold select_modes. rewrite bind_run, for_each_contains.
  match goal with |- context [foldl ?f ?a ?l] => destruct (foldl f a l) end.
  - rewrite bind_run. unfold lift. by destruct (_ ≫= _).
  - case_bool_decide; [|done].
    rewrite bind_run. unfold lift. by destruct (_ ≫= _).
Qed.

(** [kwargs.pop]: the answer and the state it leaves. *)
Lemma kwargs_pop_run key st :
  kwargs_pop key st =
  (match kwargs st !! key with
   | Some v => Ok v
   | None => Raise (Exn KeyError (VStr key))
   end, State (delete key (kwargs st)) (calls st)).
Proof.
  unfold kwargs_pop. destruct (kwargs st !! key) eqn:Hk; [done|].
  rewrite delete_id by done. by destruct st.
Qed.

Lemma pop_output_style_state st :
  (pop_output_style st).2 = State (delete "output_style" (kwargs st)) (calls st).
Proof.
  unfold pop_output_style, try_except, try_except_else.
  rewrite bind_run, kwargs_pop_run.
  destruct (kwargs st !! "output_style") as [[]|]; simpl; try done;
    (destruct (getitem OUTPUT_STYLES _); [done|]);
    rewrite bind_run; unfold lift; by destruct (and_join _).
Qed.

Lemma pop_include_paths_state st :
  (pop_include_paths st).2
  = State (delete "include_paths" (kwargs st)) (calls st).
Proof.
  unfold pop_include_paths, try_except_else. rewrite kwargs_pop_run.
  by destruct (kwargs st !! "include_paths") as [[]|].
Qed.

Lemma pop_image_path_state st :
  (pop_image_path st).2 = State (delete "image_path" (kwargs st)) (calls st).
Proof.
  unfold pop_image_path, try_except_else. rewrite kwargs_pop_run.
  by destruct (kwargs st !! "image_path") as [[]|].
Qed.

Lemma stripped_lookup kw k :
  k ∈ MODES → stripped kw !! k = kw !! k.
Proof.
  intros Hk. unfold stripped.
  rewrite !lookup_delete_ne; [done|intros <-; revert Hk; compute_done..].
Qed.

(** Running one step whose final state is known by [lem]: the state is
    replaced by its value and the outcome of the step is split in two. *)
Ltac run_step m lem :=
  rewrite ?bind_run;
  lazymatch goal with
  | |- context [m ?s] =>
      let Hst := fresh "Hst" in
      let r := fresh "r" in
      let st := fresh "st" in
      pose proof (lem s) as Hst;
      destruct (m s) as [r st]; simpl in Hst; subst st;
      destruct r as [?|?]; simpl
  end.

(** With one mode selected, [compile] is the option validation followed by
    the dispatch on what is left of [kwargs]. *)
Lemma compile_one_mode kw m :
  present_modes kw = [m] →
  compile kw =
  match options kw with
  | Ok (output_style, include_paths, image_path) =>
      let '(r, st) :=
        (p ← dispatch [m] output_style include_paths image_path;
         lift (result_of p)) (State (stripped kw) []) in
      (r, calls st)
  | Raise e => (Raise e, [])
  end.
Proof.
  intros Hm. unfold compile, compile_body, options, compile_from_include_paths.
  rewrite bind_run, (select_modes_one _ m) by done.
  run_step pop_output_style pop_output_style_state; [|done].
  run_step pop_include_paths pop_include_paths_state; [|done].
  run_step pop_image_path pop_image_path_state; [|done].
  fold (stripped kw). done.
Qed.

(** *** The dispatch, mode by mode *)

Lemma dispatch_string st string output_style include_paths image_path :
  kwargs st !! "string" = Some string →
  dispatch ["string"] output_style include_paths image_path st
  = (Ok (compile_string string output_style include_paths image_path),
     State (delete "string" (kwargs st))
       (calls st ++
        [CompileString string output_style include_paths image_path])).
Proof.
  intros Hs. unfold dispatch. simpl.
  rewrite bind_run, kwargs_pop_run, Hs. done.
Qed.

Lemma dispatch_filename st filename output_style include_paths image_path :
  kwargs st !! "filename" = Some filename →
  dispatch ["filename"] output_style include_paths image_path st
  = match isfile filename with
    | Ok true =>
        (Ok (compile_filename filename output_style include_paths image_path),
         State (delete "filename" (kwargs st))
           (calls st ++
            [CompileFilename filename output_style include_paths image_path]))
    | Ok false =>
        (Raise (Exn IOError (VStr (repr filename +:+ " seems not a file"))),
         State (delete "filename" (kwargs st)) (calls st))
    | Raise e => (Raise e, State (delete "filename" (kwargs st)) (calls st))
    end.
Proof.
  intros Hf. unfold dispatch. simpl.
  rewrite bind_run, kwargs_pop_run, Hf. rewrite bind_run. unfold lift.
  by destruct (isfile filename) as [[]|].
Qed.

Lemma dispatch_dirname st dirname output_style include_paths image_path :
  kwargs st !! "dirname" = Some dirname →
  dispatch ["dirname"] output_style include_paths image_path st
  = match unpack2 dirname with
    | Ok (search_path, output_path) =>
        (Ok (compile_dirname search_path output_path
               output_style include_paths image_path),
         State (delete "dirname" (kwargs st))
           (calls st ++
            [CompileDirname search_path output_path
               output_style include_paths image_path]))
    | Raise e =>
        (Raise (if issubclass (exn_cls e) ValueError
                then Exn ValueError
                       (VStr "dirname must be a pair of (source_dir, output_dir)")
                else e),
         State (delete "dirname" (kwargs st)) (calls st))
    end.
Proof.
  intros Hd. unfold dispatch. simpl.
  rewrite bind_run. unfold try_except, try_except_else.
  rewrite bind_run, kwargs_pop_run, Hd. unfold lift.
  destruct (unpack2 dirname) as [[a b]|e]; [done|].
  by destruct (issubclass (exn_cls e) ValueError).
Qed.

(** Unpacking fails with a [TypeError] on what cannot be iterated and with a
    [ValueError] on a wrong number of items. *)
Lemma unpack2_Ok v a b : unpack2 v = Ok (a, b) ↔ iter v = Ok [a; b].
Proof.
  unfold unpack2. destruct (iter v) as [[|x [|y [|z l]]]|e]; simpl;
    split; intros; simplify_eq; done.
Qed.

Lemma unpack2_Raise v e :
  unpack2 v = Raise e →
  (iter v = Raise e ∧ exn_cls e = TypeError) ∨
  (∃ items, iter v = Ok items ∧ length items ≠ 2%nat ∧ exn_cls e = ValueError).
Proof.
  unfold unpack2. destruct (iter v) as [items|e'] eqn:Hiter; simpl.
  - intros He. right. exists items. unfold raise in He.
    destruct items as [|x [|y [|z l]]]; simplify_eq; simpl;
      split_and!; done.
  - intros [= ->]. left. split; [done|].
    unfold iter, raise in Hiter. by destruct v; simplify_eq.
Qed.

(** Rewriting the dispatch of a one-mode call with the lemma of its mode. *)
Ltac at_mode lem v :=
  rewrite bind_run, (lem _ v)
    by (simpl; rewrite stripped_lookup; [done|compute_done]).

(** *** The claims on the mode keywords and on the dispatch *)

(** C3: when none of the mode keywords string, filename, dirname is present,
    or two or more of them are, compile raises a usage error (a TypeError)
    and calls no native entry point. *)
Theorem compile_mode_count (kw : gmap string value) :
  length (present_modes kw) = 0%nat ∨ (2 ≤ length (present_modes kw))%nat →
  ∃ e, compile kw = (Raise e, []) ∧
       exn_cls e = TypeError ∧ is_usage_error e = true.
Proof.
  intros Hn.
  destruct (select_modes_error (State kw [])) as [msg Hmsg]; [simpl; lia|].
  exists (Exn TypeError (VStr msg)). split; [|done].
  unfold compile, compile_body. by rewrite bind_run, Hmsg.
Qed.

(** C7, as amended: in filename mode, when the options output_style,
    include_paths and image_path validate and the path is not an existing
    regular file, compile raises an IOError whose message names the path,
    and calls no native entry point. *)
Theorem compile_filename_not_a_file
    (kw : gmap string value) (path output_style include_paths image_path : value) :
  only_mode kw "filename" path →
  options kw = Ok (output_style, include_paths, image_path) →
  isfile path = Ok false →
  compile kw
  = (Raise (Exn IOError (VStr (repr path +:+ " seems not a file"))), []) ∧
  is_io_error (Exn IOError (VStr (repr path +:+ " seems not a file"))) = true.
Proof.
  intros [Hm Hp] Hopt Hfile. split; [|done].
  rewrite (compile_one_mode kw "filename") by done. rewrite Hopt.
  at_mode dispatch_filename path. by rewrite Hfile.
Qed.

(** The options never fail with a [ValueError] proper. *)
Lemma and_join_styles : ∃ names, and_join OUTPUT_STYLES_value = Ok (VStr names).
Proof.
  destruct (and_join_dict (prod_map id VInt <$> OUTPUT_STYLES))
    as (front & y & _ & Hj); [|eauto].
  rewrite length_fmap, <-(length_fmap fst), OUTPUT_STYLES_names. simpl. lia.
Qed.

Lemma join_items_error i items e :
  join_items i items = Raise e → exn_cls e = TypeError.
Proof.
  revert i. induction items as [|x items IH]; intros i; simpl; [done|].
  unfold raise. destruct x; simpl; try (by intros; simplify_eq).
  destruct (join_items (S i) items) eqn:Hj; simpl; [done|].
  intros [= ->]. by apply (IH (S i)).
Qed.

Lemma join_error sep v e :
  join sep v = Raise e → exn_cls e = TypeError.
Proof.
  unfold join. destruct (iter v) as [items|e'] eqn:Hi; simpl.
  - destruct (join_items 0 items) eqn:Hj; simpl; [done|].
    intros [= ->]. by apply join_items_error in Hj.
  - intros [= ->]. unfold iter, raise in Hi. by destruct v; simplify_eq.
Qed.

Lemma pop_output_style_error st e st' :
  pop_output_style st = (Raise e, st') →
  exn_cls e = TypeError ∨ exn_cls e = CompileError.
Proof.
  unfold pop_output_style, try_except, try_except_else.
  rewrite bind_run, kwargs_pop_run.
  destruct and_join_styles as [names Hnames]. unfold throw, lift.
  destruct (kwargs st !! "output_style") as [[]|]; simpl;
    try (intros; simplify_eq; by left).
  all: match goal with |- context [getitem OUTPUT_STYLES ?n] =>
         destruct (getitem OUTPUT_STYLES n) as [flag|] end; simpl; [done|].
  all: rewrite bind_run, Hnames; simpl.
  all: intros; simplify_eq; by right.
Qed.

Lemma pop_include_paths_error st e st' :
  pop_include_paths st = (Raise e, st') → exn_cls e = TypeError.
Proof.
  unfold pop_include_paths, try_except_else. rewrite kwargs_pop_run.
  unfold throw, lift.
  destruct (kwargs st !! "include_paths") as [inc|]; simpl; [|done].
  destruct (is_sequence inc); simpl.
  - intros [= Hj _]. by apply join_error in Hj.
  - destruct (is_basestring inc); simpl; intros; by simplify_eq.
Qed.

Lemma pop_image_path_error st e st' :
  pop_image_path st = (Raise e, st') → exn_cls e = TypeError.
Proof.
  unfold pop_image_path, try_except_else. rewrite kwargs_pop_run.
  unfold throw, lift.
  destruct (kwargs st !! "image_path") as [img|]; simpl; [|done].
  destruct (is_basestring img); simpl; intros; by simplify_eq.
Qed.

Lemma options_error kw e :
  options kw = Raise e → exn_cls e = TypeError ∨ exn_cls e = CompileError.
Proof.
  unfold options. rewrite bind_run.
  destruct (pop_output_style _) as [[sty|e1] st1] eqn:H1; simpl;
    [|intros [= ->]; by apply pop_output_style_error in H1].
  rewrite bind_run.
  destruct (pop_include_paths _) as [[inc|e2] st2] eqn:H2; simpl;
    [|intros [= ->]; left; by apply pop_include_paths_error in H2].
  rewrite bind_run.
  destruct (pop_image_path _) as [[img|e3] st3] eqn:H3; simpl;
    [done|intros [= ->]; left; by apply pop_image_path_error in H3].
Qed.


(** C10, as amended: in dirname mode, once the options output_style,
    include_paths and image_path validate, any value that unpacks into two
    items is accepted without a usage error: the two items go to the native
    directory entry point as source and output directory, and so do the two
    characters of a two-character string.  The error on the shape of the
    pair is raised only when the value unpacks into a number of items other
    than two. *)
Theorem compile_dirname_accepts_two_items
    (kw : gmap string value) (dirname : value) :
  only_mode kw "dirname" dirname →
  (∀ output_style include_paths image_path,
     options kw = Ok (output_style, include_paths, image_path) →
     (∀ a b, iter dirname = Ok [a; b] →
        compile kw
        = (result_of (compile_dirname a b
                        output_style include_paths image_path),
           [CompileDirname a b output_style include_paths image_path]) ∧
        ∀ e, (compile kw).1 = Raise e → is_usage_error e = false) ∧
     (∀ c1 c2, dirname = VStr (String c1 (String c2 "")) →
        (compile kw).2
        = [CompileDirname (VStr (String c1 "")) (VStr (String c2 ""))
             output_style include_paths image_path])) ∧
  (∀ calls,
     compile kw
     = (Raise (Exn ValueError
                 (VStr "dirname must be a pair of (source_dir, output_dir)")),
        calls) →
     ∃ items, iter dirname = Ok items ∧ length items ≠ 2%nat).
Proof.
  intros [Hm Hd].
  assert (∀ sty inc img a b,
     options kw = Ok (sty, inc, img) → iter dirname = Ok [a; b] →
     compile kw
     = (result_of (compile_dirname a b sty inc img),
        [CompileDirname a b sty inc img])) as Hpair.
  { intros sty inc img a b Hopt Hab%unpack2_Ok.
    rewrite (compile_one_mode kw "dirname") by done. rewrite Hopt.
    at_mode dispatch_dirname dirname.
    by rewrite Hab. }
  split.
  - intros sty inc img Hopt. split.
    + intros a b Hab. rewrite (Hpair sty inc img a b) by done.
      split; [done|]. simpl. unfold result_of.
      destruct (compile_dirname a b sty inc img) as [[] v]; [done|].
      by intros e [= <-].
    + intros c1 c2 ->.
      by rewrite (Hpair sty inc img (VStr (String c1 "")) (VStr (String c2 ""))).
  - intros tr. rewrite (compile_one_mode kw "dirname") by done.
    destruct (options kw) as [[[sty inc] img]|e] eqn:Hopt.
    + at_mode dispatch_dirname dirname.
      destruct (unpack2 dirname) as [[a b]|e] eqn:Hu.
      * simpl. unfold lift, result_of.
        destruct (compile_dirname _ _ _ _ _) as [[] v]; intros; simplify_eq.
      * apply unpack2_Raise in Hu as [[_ Hc]|(items & Hi & Hl & _)];
          [|eauto].
        rewrite Hc. simpl. intros [= -> _]. done.
    + apply options_error in Hopt. intros [= -> _]. by destruct Hopt.
Qed.

(** *** The claims on the options *)

Lemma getitem_Some {A} (d : list (string * A)) key :
  key ∈ d.*1 → is_Some (getitem d key).
Proof.
  induction d as [|[k a] d IH]; simpl; [by intros ?%elem_of_nil|].
  intros [->|Hin]%elem_of_cons; case_bool_decide; eauto; done.
Qed.

Lemma getitem_None {A} (d : list (string * A)) key :
  key ∉ d.*1 → getitem d key = None.
Proof.
  induction d as [|[k a] d IH]; simpl; [done|].
  intros Hn. case_bool_decide as Hk.
  - destruct Hn. subst. by left.
  - apply IH. intros Hin. apply Hn. by right.
Qed.

(** The style names, as [and_join] lists them in an error message. *)
Lemma and_join_styles_listed :
  ∃ front final, OUTPUT_STYLES.*1 = front ++ [final] ∧
    and_join OUTPUT_STYLES_value = Ok (VStr (conjunction front final)).
Proof.
  destruct (and_join_dict (prod_map id VInt <$> OUTPUT_STYLES))
    as (front & y & Hk & Hj).
  - rewrite length_fmap, <-(length_fmap fst), OUTPUT_STYLES_names. simpl. lia.
  - exists front, y. split; [|done]. rewrite <-Hk, <-list_fmap_compose.
    apply list_fmap_ext. by intros ? [].
Qed.

(** C4, as amended: in a call with exactly one mode keyword and a textual
    output_style: if the name is a key of the style mapping, the run goes on
    past the style validation, at the include_paths step with the flag of
    the name; if it is not, compile raises a CompileError (not a usage
    error) whose message lists the style names, and calls no native entry
    point. *)
Theorem compile_output_style (kw : gmap string value) (m name : string) :
  present_modes kw = [m] →
  kw !! "output_style" = Some (VStr name) →
  (name ∈ OUTPUT_STYLES.*1 →
     ∃ flag, getitem OUTPUT_STYLES name = Some flag ∧
       compile kw =
       let '(r, st) :=
         compile_from_include_paths [m] (VInt flag)
           (State (delete "output_style" kw) []) in
       (r, calls st)) ∧
  (name ∉ OUTPUT_STYLES.*1 →
     ∃ front final e,
       OUTPUT_STYLES.*1 = front ++ [final] ∧
       e = Exn CompileError
             (VStr (name +:+ " is unsupported output_style; choose one of " +:+
                    conjunction front final)) ∧
       compile kw = (Raise e, []) ∧
       is_compile_error e = true ∧ is_usage_error e = false).
Proof.
  intros Hm Hs.
  assert (compile kw =
    match pop_output_style (State kw []) with
    | (Ok sty, st) =>
        let '(r, st') := compile_from_include_paths [m] sty st in
        (r, calls st')
    | (Raise e, st) => (Raise e, calls st)
    end) as ->.
  { unfold compile, compile_body.
    rewrite bind_run, (select_modes_one _ m), bind_run by done.
    by destruct (pop_output_style _) as [[]]. }
  unfold pop_output_style, try_except, try_except_else.
  rewrite bind_run, kwargs_pop_run. simpl. rewrite Hs. simpl. split.
  - intros [flag Hflag]%(getitem_Some OUTPUT_STYLES).
    exists flag. split; [done|]. by rewrite Hflag.
  - intros Hnone%(getitem_None OUTPUT_STYLES). rewrite Hnone.
    destruct and_join_styles_listed as (front & final & Hk & Hj).
    exists front, final. eexists. split; [done|]. split; [done|].
    rewrite bind_run. unfold lift. rewrite Hj. done.
Qed.

(** Joining a string joins its characters. *)
Lemma join_str sep s :
  join sep (VStr s) = Ok (VStr (String.concat sep (letters s))).
Proof. unfold join. simpl. unfold chars. by rewrite join_items_strings. Qed.

(** Joining the characters of a string of two characters or more never gives
    the string back. *)
Lemma string_length_append (a b : string) :
  String.length (a +:+ b) = (String.length a + String.length b)%nat.
Proof. induction a as [|c a IH]; simpl; [done|]. by rewrite IH. Qed.

Lemma length_concat_letters sep s :
  s ≠ "" →
  String.length (String.concat sep (letters s))
  = (String.length s + (String.length s - 1) * String.length sep)%nat.
Proof.
  induction s as [|c s IH]; [done|]. intros _.
  destruct s as [|c' s'].
  - simpl. lia.
  - change (letters (String c (String c' s')))
      with (String c "" :: letters (String c' s')).
    change (String.concat sep (String c "" :: letters (String c' s')))
      with (String c (sep +:+ String.concat sep (letters (String c' s')))).
    cbn [String.length]. rewrite string_length_append, IH by done.
    cbn [String.length]. simpl. rewrite Nat.sub_0_r. lia.
Qed.

Lemma join_str_changes s :
  (2 ≤ String.length s)%nat → String.concat ":" (letters s) ≠ s.
Proof.
  intros Hlen Heq. apply (f_equal String.length) in Heq.
  rewrite length_concat_letters in Heq
    by (intros ->; simpl in Hlen; lia).
  simpl in Heq. lia.
Qed.

(** What [include_paths] becomes: a sequence of strings is joined with a
    colon, and so are the characters of a string. *)
Lemma pop_include_paths_strings st k l :
  kwargs st !! "include_paths" = Some (strings k l) →
  (pop_include_paths st).1 = Ok (VStr (String.concat ":" l)).
Proof.
  intros Hi. unfold pop_include_paths, try_except_else.
  rewrite kwargs_pop_run, Hi. simpl.
  destruct k; simpl; unfold lift; simpl.
  - by rewrite join_strings.
  - unfold join. simpl. by rewrite join_items_strings.
Qed.

Lemma pop_include_paths_str st s :
  kwargs st !! "include_paths" = Some (VStr s) →
  (pop_include_paths st).1 = Ok (VStr (String.concat ":" (letters s))).
Proof.
  intros Hi. unfold pop_include_paths, try_except_else.
  rewrite kwargs_pop_run, Hi. simpl. unfold lift. by rewrite join_str.
Qed.

(** The options, step by step on the keyword arguments of the call. *)
Lemma options_run kw :
  options kw =
  (output_style ← (pop_output_style (State kw [])).1;
   include_paths ←
     (pop_include_paths (State (delete "output_style" kw) [])).1;
   image_path ←
     (pop_image_path
        (State (delete "include_paths" (delete "output_style" kw)) [])).1;
   Ok (output_style, include_paths, image_path)).
Proof.
  unfold options.
  run_step pop_output_style pop_output_style_state; [|done].
  run_step pop_include_paths pop_include_paths_state; [|done].
  rewrite bind_run. by destruct (pop_image_path _) as [[img|e] st3].
Qed.

Lemma pop_output_style_default st :
  kwargs st !! "output_style" = None →
  ∃ flag, getitem OUTPUT_STYLES "nested" = Some flag ∧
    (pop_output_style st).1 = Ok (VInt flag).
Proof.
  intros Hs. destruct (getitem_Some OUTPUT_STYLES "nested") as [flag Hflag].
  { rewrite OUTPUT_STYLES_names. compute_done. }
  exists flag. split; [done|].
  unfold pop_output_style, try_except, try_except_else.
  rewrite bind_run, kwargs_pop_run, Hs. simpl. by rewrite Hflag.
Qed.

Lemma pop_image_path_default st :
  kwargs st !! "image_path" = None → (pop_image_path st).1 = Ok (VStr ".").
Proof.
  intros Hs. unfold pop_image_path, try_except_else.
  by rewrite kwargs_pop_run, Hs.
Qed.

Lemma compile_string_mode kw string output_style include_paths image_path :
  only_mode kw "string" string →
  options kw = Ok (output_style, include_paths, image_path) →
  compile kw
  = (result_of (compile_string string output_style include_paths image_path),
     [CompileString string output_style include_paths image_path]).
Proof.
  intros [Hm Hs] Hopt.
  rewrite (compile_one_mode kw "string") by done. rewrite Hopt.
  by at_mode dispatch_string string.
Qed.

(** C1, on the code: with the default style, the list ["a", "b", "c"] given
    as include_paths reaches the native entry point as "a:b:c", but the
    string "a:b:c" reaches it as "a:::b:::c", its characters joined with
    colons, and not unchanged. *)
Theorem compile_include_paths_forwarded (string : value) :
  ∃ flag, getitem OUTPUT_STYLES "nested" = Some flag ∧
    (compile (list_to_map
       [("string", string);
        ("include_paths", VList [VStr "a"; VStr "b"; VStr "c"])])).2
    = [CompileString string (VInt flag) (VStr "a:b:c") (VStr ".")] ∧
    (compile (list_to_map
       [("string", string); ("include_paths", VStr "a:b:c")])).2
    = [CompileString string (VInt flag) (VStr "a:::b:::c") (VStr ".")].
Proof.
  destruct (pop_output_style_default (State (list_to_map
       [("string", string);
        ("include_paths", VList [VStr "a"; VStr "b"; VStr "c"])]) []))
    as (flag & Hflag & Hsty1); [done|].
  destruct (pop_output_style_default (State (list_to_map
       [("string", string); ("include_paths", VStr "a:b:c")]) []))
    as (flag' & Hflag' & Hsty2); [done|].
  assert (flag' = flag) as -> by congruence.
  exists flag. split; [done|]. split.
  - erewrite compile_string_mode; [done|by split|].
    rewrite options_run, Hsty1. simpl.
    rewrite (pop_include_paths_strings _ AsList ["a"; "b"; "c"]) by done.
    simpl. by rewrite pop_image_path_default.
  - erewrite compile_string_mode; [done|by split|].
    rewrite options_run, Hsty2. simpl.
    rewrite (pop_include_paths_str _ "a:b:c") by done.
    simpl. by rewrite pop_image_path_default.
Qed.

(** *** The result of the native call *)

(** The dispatch either raises without a native call, or makes one native
    call and answers its pair. *)
Lemma dispatch_shape modes output_style include_paths image_path st :
  (∃ e st',
     dispatch modes output_style include_paths image_path st = (Raise e, st') ∧
     calls st' = calls st) ∨
  (∃ c st',
     dispatch modes output_style include_paths image_path st
     = (Ok (native_result c), st') ∧
     calls st' = calls st ++ [c]).
Proof.
  unfold dispatch, try_except, try_except_else, throw, lift.
  repeat case_bool_decide; rewrite ?bind_run, ?kwargs_pop_run.
  - destruct (kwargs st !! "string"); simpl; [right|left]; eauto.
  - destruct (kwargs st !! "filename") as [path|]; simpl; [|left; eauto].
    rewrite bind_run. destruct (isfile path) as [[]|]; simpl;
      [right|left|left]; eauto.
  - rewrite ?bind_run, ?kwargs_pop_run.
    destruct (kwargs st !! "dirname") as [d|]; simpl; [|left; eauto].
    destruct (unpack2 d) as [[a b]|e]; simpl; [right; eauto|].
    left. destruct (issubclass _ _); eauto.
  - left. eauto.
Qed.

(** C2: when a call to compile reaches a native entry point, it reaches
    exactly one; if that entry point answers (true, payload), compile
    returns the payload, and if it answers (false, payload), compile raises
    a CompileError whose argument is the payload. *)
Theorem compile_result_of_native
    (kw : gmap string value) (r : result value) (made : list native_call) :
  compile kw = (r, made) →
  made ≠ [] →
  ∃ c, made = [c] ∧
    ∀ payload,
      (native_result c = (true, payload) → r = Ok payload) ∧
      (native_result c = (false, payload) →
       r = Raise (Exn CompileError payload)).
Proof.
  unfold compile, compile_body, compile_from_include_paths.
  run_step select_modes select_modes_state; [|by intros [= <- <-]].
  run_step pop_output_style pop_output_style_state; [|by intros [= <- <-]].
  run_step pop_include_paths pop_include_paths_state; [|by intros [= <- <-]].
  run_step pop_image_path pop_image_path_state; [|by intros [= <- <-]].
  rewrite bind_run.
  lazymatch goal with |- context [dispatch ?ms ?a1 ?a2 ?a3 ?s] =>
    destruct (dispatch_shape ms a1 a2 a3 s)
      as [(e & st' & -> & Hc)|(c & st' & -> & Hc)] end;
    simpl in Hc.
  - rewrite Hc. by intros [= <- <-].
  - unfold lift. rewrite Hc. intros [= <- <-] _. exists c. split; [done|].
    intros payload. unfold result_of.
    split; intros ->; done.
Qed.

End CompileFacts.

(** ** Keywords that [compile] does not know *)

Section Insensitive.
Context `{!Imports}.
Hypothesis set_iter_perm : ∀ s, set_iter s ≡ₚ s.

Lemma insensitive_ret {A} (a : A) : insensitive (mret a).
Proof. by intros st1 st2 Hag. Qed.

Lemma insensitive_lift {A} (r : result A) : insensitive (lift r).
Proof. by intros st1 st2 Hag. Qed.

Lemma insensitive_throw {A} c arg : insensitive (@throw A c arg).
Proof. by intros st1 st2 Hag. Qed.

Lemma insensitive_bind {A B} (m : M A) (f : A → M B) :
  insensitive m → (∀ a, insensitive (f a)) → insensitive (m ≫= f).
Proof.
  intros Hm Hf st1 st2 Hag. rewrite !bind_run.
  destruct (Hm st1 st2 Hag) as [Hr Hst].
  destruct (m st1) as [[a1|e1] st1'], (m st2) as [[a2|e2] st2'];
    simpl in *; simplify_eq; [by apply Hf|done].
Qed.

Lemma insensitive_try_except_else {A B}
    (body : M A) cls (handler : M B) (orelse : A → M B) :
  insensitive body → insensitive handler → (∀ a, insensitive (orelse a)) →
  insensitive (try_except_else body cls handler orelse).
Proof.
  intros Hb Hh Ho st1 st2 Hag. unfold try_except_else.
  destruct (Hb st1 st2 Hag) as [Hr Hst].
  destruct (body st1) as [[a1|e1] st1'], (body st2) as [[a2|e2] st2'];
    simpl in *; simplify_eq; [by apply Ho|].
  destruct (issubclass _ _); [by apply Hh|done].
Qed.

Lemma insensitive_try_except {A} (body : M A) cls (handler : M A) :
  insensitive body → insensitive handler →
  insensitive (try_except body cls handler).
Proof.
  intros. apply insensitive_try_except_else; auto using @insensitive_ret.
Qed.

Lemma insensitive_pop key : key ∈ recognized → insensitive (kwargs_pop key).
Proof.
  intros Hk st1 st2 [Hc Hkw]. rewrite !kwargs_pop_run. simpl.
  rewrite (Hkw key Hk), Hc. split; [done|]. split; [done|].
  intros key' Hk'. simpl. rewrite !lookup_delete. case_decide; auto.
Qed.

Lemma insensitive_contains key :
  key ∈ recognized → insensitive (kwargs_contains key).
Proof.
  intros Hk st1 st2 [Hc Hkw]. unfold kwargs_contains. simpl.
  by rewrite (Hkw key Hk).
Qed.

Lemma insensitive_call c : insensitive (call c).
Proof.
  intros st1 st2 [Hc Hkw]. unfold call. simpl. by rewrite Hc.
Qed.

Lemma insensitive_for_each {A B} (items : list A) (acc : B) step :
  (∀ x acc', x ∈ items → insensitive (step acc' x)) →
  insensitive (for_each items acc step).
Proof.
  revert acc. induction items as [|x items IH]; intros acc Hstep; simpl.
  - apply insensitive_ret.
  - apply insensitive_bind; [apply Hstep; by left|].
    intros acc'. apply IH. intros y acc'' Hy. apply Hstep. by right.
Qed.

Lemma MODES_recognized key : key ∈ MODES → key ∈ recognized.
Proof.
  unfold MODES. intros Hk.
  repeat (apply elem_of_cons in Hk as [->|Hk]; [compute_done|]).
  by apply elem_of_nil in Hk.
Qed.

Lemma insensitive_select_modes : insensitive select_modes.
Proof.
  unfold select_modes. apply insensitive_bind.
  - apply insensitive_for_each. intros x acc Hx.
    apply insensitive_bind; [|intros; apply insensitive_ret].
    apply insensitive_contains, MODES_recognized.
    by rewrite <-(set_iter_perm MODES).
  - intros [|m modes].
    + apply insensitive_bind;
        [apply insensitive_lift|intros; apply insensitive_throw].
    + case_bool_decide; [|apply insensitive_ret].
      apply insensitive_bind;
        [apply insensitive_lift|intros; apply insensitive_throw].
Qed.

Lemma insensitive_pop_output_style : insensitive pop_output_style.
Proof.
  unfold pop_output_style. apply insensitive_bind.
  - apply insensitive_try_except;
      [apply insensitive_pop; compute_done|apply insensitive_ret].
  - intros []; try apply insensitive_throw.
    destruct (getitem _ _); [apply insensitive_ret|].
    apply insensitive_bind;
      [apply insensitive_lift|intros; apply insensitive_throw].
Qed.

Lemma insensitive_pop_include_paths : insensitive pop_include_paths.
Proof.
  unfold pop_include_paths. apply insensitive_try_except_else.
  - apply insensitive_pop; compute_done.
  - apply insensitive_ret.
  - intros v. destruct (is_sequence v); [apply insensitive_lift|].
    destruct (negb _); [apply insensitive_throw|apply insensitive_ret].
Qed.

Lemma insensitive_pop_image_path : insensitive pop_image_path.
Proof.
  unfold pop_image_path. apply insensitive_try_except_else.
  - apply insensitive_pop; compute_done.
  - apply insensitive_ret.
  - intros v.
    destruct (negb _); [apply insensitive_throw|apply insensitive_ret].
Qed.

Lemma insensitive_dispatch modes output_style include_paths image_path :
  insensitive (dispatch modes output_style include_paths image_path).
Proof.
  unfold dispatch. repeat case_bool_decide.
  - apply insensitive_bind; [apply insensitive_pop; compute_done|].
    intros. apply insensitive_call.
  - apply insensitive_bind; [apply insensitive_pop; compute_done|].
    intros path. apply insensitive_bind; [apply insensitive_lift|].
    intros []; [apply insensitive_call|apply insensitive_throw].
  - apply insensitive_bind.
    + apply insensitive_try_except; [|apply insensitive_throw].
      apply insensitive_bind; [apply insensitive_pop; compute_done|].
      intros. apply insensitive_lift.
    + intros [a b]. apply insensitive_call.
  - apply insensitive_throw.
Qed.

Lemma insensitive_compile_body : insensitive compile_body.
Proof.
  unfold compile_body, compile_from_include_paths.
  apply insensitive_bind; [apply insensitive_select_modes|intros modes].
  apply insensitive_bind; [apply insensitive_pop_output_style|intros sty].
  apply insensitive_bind; [apply insensitive_pop_include_paths|intros inc].
  apply insensitive_bind; [apply insensitive_pop_image_path|intros img].
  apply insensitive_bind; [apply insensitive_dispatch|intros p].
  apply insensitive_lift.
Qed.

(** C9: a keyword option other than string, filename, dirname, output_style,
    include_paths and image_path is ignored: the call with it added returns or
    raises the same, and makes the same native calls, as the call without
    it. *)
Theorem compile_ignores_unrecognized
    (kw : gmap string value) (key : string) (v : value) :
  key ∉ recognized →
  compile (<[key := v]> kw) = compile kw.
Proof.
  intros Hkey. unfold compile.
  destruct (insensitive_compile_body
              (State (<[key := v]> kw) []) (State kw [])) as [Hr [Hc _]].
  { split; [done|]. intros key' Hk'. simpl.
    apply lookup_insert_ne. intros Heq. apply Hkey. by rewrite Heq. }
  destruct (compile_body (State (<[key := v]> kw) [])) as [r1 st1].
  destruct (compile_body (State kw [])) as [r2 st2].
  simpl in *. by rewrite Hr, Hc.
Qed.

End Insensitive.

(** ** The statements at work in the [Demo] environment *)

Lemma compile_include_paths_forwarded_witness :
  ∃ flag, getitem Demo.styles "nested" = Some flag ∧
    (Demo.run (Demo.kw
       [("string", VStr "a { b { color: blue; } }");
        ("include_paths", VList [VStr "a"; VStr "b"; VStr "c"])])).2
    = [CompileString (VStr "a { b { color: blue; } }")
         (VInt flag) (VStr "a:b:c") (VStr ".")] ∧
    (Demo.run (Demo.kw
       [("string", VStr "a { b { color: blue; } }");
        ("include_paths", VStr "a:b:c")])).2
    = [CompileString (VStr "a { b { color: blue; } }")
         (VInt flag) (VStr "a:::b:::c") (VStr ".")].
Proof.
  apply (@compile_include_paths_forwarded Demo.imports).
  - intros s. reflexivity.
  - reflexivity.
Defined.

Lemma compile_result_of_native_witness :
  Demo.run (Demo.kw [("string", VStr "a { b }")])
  = (Raise (Exn CompileError (VStr "error: unexpected token")),
     [CompileString (VStr "a { b }") (VInt 0) (VStr "") (VStr ".")]) ∧
  ∃ c, [CompileString (VStr "a { b }") (VInt 0) (VStr "") (VStr ".")] = [c] ∧
    ∀ payload,
      (@native_result Demo.imports c = (true, payload) →
       @Raise value (Exn CompileError (VStr "error: unexpected token"))
       = Ok payload) ∧
      (@native_result Demo.imports c = (false, payload) →
       @Raise value (Exn CompileError (VStr "error: unexpected token"))
       = Raise (Exn CompileError payload)).
Proof.
  split; [vm_compute; reflexivity|].
  apply (@compile_result_of_native Demo.imports
           (Demo.kw [("string", VStr "a { b }")])).
  - vm_compute. reflexivity.
  - discriminate.
Defined.

Lemma compile_mode_count_witness :
  (2 ≤ length (present_modes
       (Demo.kw [("string", VStr "a { b }"); ("filename", VStr "a.scss")])))%nat ∧
  ∃ e,
    Demo.run (Demo.kw [("string", VStr "a { b }"); ("filename", VStr "a.scss")])
    = (Raise e, []) ∧
    exn_cls e = TypeError ∧ is_usage_error e = true.
Proof.
  split; [vm_compute; lia|].
  apply (@compile_mode_count Demo.imports).
  - intros s. reflexivity.
  - right. vm_compute. lia.
Defined.

Lemma compile_output_style_witness :
  "compact" ∈ Demo.styles.*1 ∧
  ∃ flag, getitem Demo.styles "compact" = Some flag ∧
    Demo.run (Demo.kw [("string", VStr "a { b }"); ("output_style", VStr "compact")])
    = let '(r, st) :=
        @compile_from_include_paths Demo.imports ["string"] (VInt flag)
          (State (delete "output_style"
                    (Demo.kw [("string", VStr "a { b }");
                              ("output_style", VStr "compact")])) []) in
      (r, calls st).
Proof.
  split; [compute_done|].
  apply (@compile_output_style Demo.imports
           (λ s, reflexivity _) (reflexivity _)
           (Demo.kw [("string", VStr "a { b }"); ("output_style", VStr "compact")])
           "string" "compact").
  - vm_compute. reflexivity.
  - vm_compute. reflexivity.
  - compute_done.
Defined.

Lemma compile_filename_not_a_file_witness :
  Demo.one_file (VStr "missing.scss") = Ok false ∧
  Demo.run (Demo.kw [("filename", VStr "missing.scss")])
  = (Raise (Exn IOError (VStr "'missing.scss' seems not a file")), []) ∧
  is_io_error (Exn IOError (VStr "'missing.scss' seems not a file")) = true.
Proof.
  split; [reflexivity|].
  apply (@compile_filename_not_a_file Demo.imports (λ s, reflexivity _)
           (Demo.kw [("filename", VStr "missing.scss")]) (VStr "missing.scss")
           (VInt 0) (VStr "") (VStr ".")).
  - split; vm_compute; reflexivity.
  - vm_compute. reflexivity.
  - reflexivity.
Defined.


Lemma compile_ignores_unrecognized_witness :
  ("source_comments" ∉ recognized) ∧
  Demo.run (<["source_comments" := VBool true]>
              (Demo.kw [("string", VStr "a { b { color: blue; } }")]))
  = Demo.run (Demo.kw [("string", VStr "a { b { color: blue; } }")]).
Proof.
  split; [compute_done|].
  apply (@compile_ignores_unrecognized Demo.imports (λ s, reflexivity _)).
  compute_done.
Defined.

Lemma compile_dirname_accepts_two_items_witness :
  only_mode (Demo.kw [("dirname", VStr "ab")]) "dirname" (VStr "ab") ∧
  @options Demo.imports (Demo.kw [("dirname", VStr "ab")])
  = Ok (VInt 0, VStr "", VStr ".") ∧
  Demo.run (Demo.kw [("dirname", VStr "ab")])
  = (Ok VNone,
     [CompileDirname (VStr "a") (VStr "b") (VInt 0) (VStr "") (VStr ".")]).
Proof.
  assert (only_mode (Demo.kw [("dirname", VStr "ab")]) "dirname" (VStr "ab"))
    as Hmode by (split; vm_compute; reflexivity).
  assert (@options Demo.imports (Demo.kw [("dirname", VStr "ab")])
          = Ok (VInt 0, VStr "", VStr ".")) as Hopt
    by (vm_compute; reflexivity).
  split; [exact Hmode|]. split; [exact Hopt|].
  exact (proj1 (proj1 (proj1 (@compile_dirname_accepts_two_items Demo.imports
                  (λ s, reflexivity _) (reflexivity _)
                  (Demo.kw [("dirname", VStr "ab")]) (VStr "ab") Hmode)
           (VInt 0) (VStr "") (VStr ".") Hopt)
           (VStr "a") (VStr "b") (reflexivity _))).
Defined.

(** ** Where the claims as stated fail *)

(** C4, as stated, fails: with no mode keyword, an unknown style name does
    not raise a CompileError; the mode check comes first and raises a usage
    error. *)
Lemma compile_style_checked_after_modes :
  (Demo.kw [("output_style", VStr "bogus")]) !! "output_style"
  = Some (VStr "bogus") ∧
  ("bogus" ∉ Demo.styles.*1) ∧
  Demo.run (Demo.kw [("output_style", VStr "bogus")])
  = (Raise (Exn TypeError
              (VStr "choose one at least in string, filename, and dirname")),
     []) ∧
  ¬ ∃ e, (Demo.run (Demo.kw [("output_style", VStr "bogus")])).1 = Raise e ∧
         is_compile_error e = true.
Proof.
  split_and!; [reflexivity|compute_done|vm_compute; reflexivity|].
  intros (e & He & Hc). vm_compute in He. by simplify_eq.
Qed.

(** C7, as stated, fails: in filename mode with a path that is not a file, an
    unknown style name raises a CompileError before the path is looked at,
    and no IOError is raised. *)
Lemma compile_style_checked_before_file :
  only_mode (Demo.kw [("filename", VStr "missing.scss");
                      ("output_style", VStr "bogus")])
    "filename" (VStr "missing.scss") ∧
  Demo.one_file (VStr "missing.scss") = Ok false ∧
  Demo.run (Demo.kw [("filename", VStr "missing.scss");
                     ("output_style", VStr "bogus")])
  = (Raise (Exn CompileError
              (VStr ("bogus is unsupported output_style; choose one of " +:+
                     "nested, expanded, compact, and compressed"))),
     []) ∧
  ¬ ∃ e, (Demo.run (Demo.kw [("filename", VStr "missing.scss");
                             ("output_style", VStr "bogus")])).1 = Raise e ∧
         is_io_error e = true.
Proof.
  split_and!; [split; vm_compute; reflexivity|reflexivity
              |vm_compute; reflexivity|].
  intros (e & He & Hc). vm_compute in He. by simplify_eq.
Qed.


(** C10, as stated, fails: in dirname mode a two-character string unpacks
    into two items, yet with an image_path that is not a string the call
    raises a usage error and forwards nothing, the options being validated
    before the value is unpacked. *)
Lemma compile_options_checked_before_two_items :
  only_mode (Demo.kw [("dirname", VStr "ab"); ("image_path", VInt 0)])
    "dirname" (VStr "ab") ∧
  iter (VStr "ab") = Ok [VStr "a"; VStr "b"] ∧
  Demo.run (Demo.kw [("dirname", VStr "ab"); ("image_path", VInt 0)])
  = (Raise (Exn TypeError (VStr "image_path must be a string, not <int>")),
     []) ∧
  is_usage_error (Exn TypeError (VStr "image_path must be a string, not <int>"))
  = true ∧
  ¬ ∃ c, c ∈ (Demo.run (Demo.kw [("dirname", VStr "ab");
                                 ("image_path", VInt 0)])).2.
Proof.
  split_and!; [split; vm_compute; reflexivity|reflexivity
              |vm_compute; reflexivity|reflexivity|].
  intros (c & Hc). vm_compute in Hc. by apply elem_of_nil in Hc.
Qed.

(** * Further properties *)

(** ** [and_join] on other inputs than sequences of strings *)

Lemma length_letters s : length (letters s) = String.length s.
Proof. induction s as [|c s IH]; simpl; [done|]. by rewrite IH. Qed.

Lemma len_of_iter v items : iter v = Ok items → len v = Ok (length items).
Proof.
  unfold iter, raise. destruct v; intros; simplify_eq; simpl; try done.
  - unfold chars. by rewrite length_fmap, length_letters.
  - by rewrite !length_fmap.
Qed.

(** X1: on any collection that iterates over two strings or more (a list, a
    tuple, a set, the keys of a dictionary, the characters of a string)
    and_join returns the items in iteration order, joined with ", " and
    with "and " before the last. *)
Theorem and_join_iterable (v : value) (front : list string) (final : string) :
  front ≠ [] →
  iter v = Ok (VStr <$> (front ++ [final])) →
  and_join v = Ok (VStr (conjunction front final)).
Proof.
  intros Hne Hiter. apply and_join_many; [done| |done].
  rewrite (len_of_iter _ _ Hiter). by rewrite length_fmap.
Qed.

(** X2: the rule that one item is returned as it is holds for what can be
    indexed only: on a set of one element, whatever the element, and_join
    raises the TypeError of indexing a set. *)
Theorem and_join_one_unindexable (x : value) :
  and_join (VSet [x])
  = Raise (Exn TypeError (VStr "'set' object does not support indexing")) ∧
  and_join (VList [x]) = Ok x ∧ and_join (VTuple [x]) = Ok x.
Proof. done. Qed.

Lemma join_items_non_string i items v :
  v ∈ items → is_basestring v = false →
  ∃ e, join_items i items = Raise e ∧ exn_cls e = TypeError.
Proof.
  intros Hin Hv. revert i. induction items as [|x items IH]; intros i.
  - by apply elem_of_nil in Hin.
  - apply elem_of_cons in Hin as [<-|Hin].
    + destruct v; simplify_eq; simpl; eexists; split; reflexivity.
    + destruct (IH Hin (S i)) as (e & He & Hc).
      destruct x; simpl; try (eexists; split; reflexivity).
      rewrite He. simpl. eauto.
Qed.

(** Draining the generator of [and_join] over any values. *)
Lemma collect_and_prefix_values (front : list value) (y : value) (a : nat) :
  collect
    ((λ '(i, s),
        if (Z.of_nat i =? Z.of_nat (a + length front))%Z
        then add (VStr "and ") s else Ok s)
       <$> zip (seq a (length (front ++ [y]))) (front ++ [y]))
  = y' ← add (VStr "and ") y; Ok (front ++ [y']).
Proof.
  revert a. induction front as [|x front IH]; intros a.
  - simpl. rewrite Nat.add_0_r, Z.eqb_refl. by destruct y.
  - simpl.
    destruct (Z.eqb_spec (Z.of_nat a) (Z.of_nat (a + S (length front))));
      [lia|].
    simpl. replace (a + S (length front)) with (S a + length front) by lia.
    rewrite IH. by destruct y.
Qed.

(** X3: and_join does not look at the type of a single item, which it
    returns as it is; with two items or more, one item that is not a string
    makes it raise a TypeError. *)
Theorem and_join_non_string_items (k : seq_kind) :
  (∀ v, and_join (sequence k [v]) = Ok v) ∧
  (∀ items v,
     (2 ≤ length items)%nat → v ∈ items → is_basestring v = false →
     ∃ e, and_join (sequence k items) = Raise e ∧ exn_cls e = TypeError).
Proof.
  split; [by destruct k|].
  intros items v Hlen Hin Hv.
  destruct (snoc_cases items) as [->|(front & y & ->)]; [simpl in Hlen; lia|].
  assert (len (sequence k (front ++ [y])) = Ok (length (front ++ [y])))
    as Hl by (by destruct k).
  assert (iter (sequence k (front ++ [y])) = Ok (front ++ [y]))
    as Hi by (by destruct k).
  assert ((Z.of_nat (length (front ++ [y])) - 1)%Z
          = Z.of_nat (0 + length front)) as Hlast
    by (rewrite length_app; simpl; lia).
  rewrite length_app in Hlen. simpl in Hlen.
  unfold and_join. rewrite Hl, Hi.
  unfold mbind at 1 2, result_bind at 1 2. cbv beta iota zeta.
  rewrite Hlast.
  destruct (Z.eqb_spec (Z.of_nat (0 + length front)) 0); [lia|].
  destruct (Z.ltb_spec (Z.of_nat (0 + length front)) 0); [lia|].
  unfold enumerate. rewrite collect_and_prefix_values.
  destruct y as [| | |s| | | |]; simpl; try (eexists; split; reflexivity).
  apply elem_of_app in Hin as [Hin|Hin%list_elem_of_singleton];
    [|by subst].
  unfold join. simpl.
  destruct (join_items_non_string 0 (front ++ [VStr ("and " +:+ s)]) v)
    as (e & -> & Hc); [apply elem_of_app; by left|done|].
  simpl. eauto.
Qed.

(** ** [compile]: error messages, option values and what is forwarded *)

Lemma and_join_set_listed (l : list string) :
  (2 ≤ length l)%nat →
  ∃ front final, l = front ++ [final] ∧
    and_join (VSet (VStr <$> l)) = Ok (VStr (conjunction front final)).
Proof.
  intros Hl. destruct (snoc_cases l) as [->|(front & y & ->)];
    [simpl in Hl; lia|].
  exists front, y. split; [done|]. apply and_join_many.
  - intros ->. simpl in Hl. lia.
  - simpl. by rewrite length_fmap.
  - done.
Qed.

Lemma join_items_Ok i items ss :
  join_items i items = Ok ss → items = VStr <$> ss.
Proof.
  revert i ss. induction items as [|x items IH]; intros i ss; simpl.
  - by intros [= <-].
  - unfold raise. destruct x; try done.
    destruct (join_items (S i) items) as [ss'|] eqn:Hj; simpl; [|done].
    intros [= <-]. simpl. f_equal. by apply (IH (S i)).
Qed.

Lemma forallb_basestring items :
  forallb is_basestring items = true → ∃ l, items = VStr <$> l.
Proof.
  induction items as [|x items IH]; simpl; [by exists []|].
  intros [Hx Hitems]%andb_true_iff. destruct (IH Hitems) as [l ->].
  destruct x; try done. by eexists (_ :: l).
Qed.

Lemma present_modes_one kw m :
  present_modes kw = [m] → m ∈ MODES ∧ is_Some (kw !! m).
Proof.
  intros Hm. assert (m ∈ present_modes kw) as Hin by (rewrite Hm; by left).
  unfold present_modes in Hin. apply list_elem_of_filter in Hin. tauto.
Qed.

Section CompileMore.
Context `{!Imports}.
Hypothesis set_iter_perm : ∀ s, set_iter s ≡ₚ s.
Hypothesis OUTPUT_STYLES_names : OUTPUT_STYLES.*1 ≡ₚ style_names.

(** *** The two errors of the mode check *)


(** X5: with two mode keywords or more, compile makes no native call and
    raises a TypeError whose message lists the mode keywords that are
    present, and only them, followed by " are exclusive each other; cannot
    be used at a time". *)
Theorem compile_exclusive_modes_message (kw : gmap string value) :
  (2 ≤ length (present_modes kw))%nat →
  ∃ front final,
    front ++ [final] ≡ₚ present_modes kw ∧
    compile kw
    = (Raise (Exn TypeError
                (VStr (conjunction front final +:+
                       " are exclusive each other; cannot be used at a time"))),
       []).
Proof.
  intros Hlen. unfold compile, compile_body, select_modes.
  destruct (selected_modes set_iter_perm (State kw []))
    as (modes & Hperm & Hrun).
  simpl in Hperm. rewrite <-Hperm in Hlen.
  destruct (and_join_set_listed (set_iter modes))
    as (front & final & Hsplit & Hj); [by rewrite set_iter_perm|].
  exists front, final. split; [by rewrite <-Hsplit, set_iter_perm|].
  rewrite !bind_run, Hrun.
  destruct modes as [|m1 [|m2 modes]]; [simpl in Hlen; lia..|].
  rewrite bool_decide_eq_true_2 by (simpl; lia).
  unfold lift, set_value. rewrite !bind_run, Hj. done.
Qed.

(** *** The options, one by one *)

Lemma options_Ok kw output_style include_paths image_path :
  options kw = Ok (output_style, include_paths, image_path) →
  (pop_output_style (State kw [])).1 = Ok output_style ∧
  (pop_include_paths (State (delete "output_style" kw) [])).1
  = Ok include_paths ∧
  (pop_image_path
     (State (delete "include_paths" (delete "output_style" kw)) [])).1
  = Ok image_path.
Proof.
  rewrite options_run.
  destruct (pop_output_style _).1; simpl; [|done].
  destruct (pop_include_paths _).1; simpl; [|done].
  destruct (pop_image_path _).1; simpl; [|done].
  by intros [= -> -> ->].
Qed.

Lemma pop_output_style_Ok st output_style :
  (pop_output_style st).1 = Ok output_style →
  ∃ name flag,
    (kwargs st !! "output_style" = None ∧ name = "nested" ∨
     kwargs st !! "output_style" = Some (VStr name)) ∧
    getitem OUTPUT_STYLES name = Some flag ∧ output_style = VInt flag.
Proof.
  unfold pop_output_style, try_except, try_except_else, throw, lift.
  rewrite bind_run, kwargs_pop_run.
  destruct (kwargs st !! "output_style") as [[| | |name| | | |]|]; simpl;
    try done.
  - destruct (getitem OUTPUT_STYLES name) as [flag|] eqn:Hg; simpl.
    + intros [= <-]. exists name, flag. auto.
    + rewrite bind_run. by destruct (and_join _).
  - destruct (getitem OUTPUT_STYLES "nested") as [flag|] eqn:Hg; simpl.
    + intros [= <-]. exists "nested", flag. auto.
    + rewrite bind_run. by destruct (and_join _).
Qed.

Lemma pop_include_paths_Ok st include_paths :
  (pop_include_paths st).1 = Ok include_paths →
  (kwargs st !! "include_paths" = None ∧ include_paths = VStr "") ∨
  ∃ v l, kwargs st !! "include_paths" = Some v ∧
    is_sequence v = true ∧ iter v = Ok (VStr <$> l) ∧
    include_paths = VStr (String.concat ":" l).
Proof.
  unfold pop_include_paths, try_except_else, throw, lift.
  rewrite kwargs_pop_run.
  destruct (kwargs st !! "include_paths") as [v|]; simpl;
    [|intros [= <-]; by left].
  destruct (is_sequence v) eqn:Hseq; simpl.
  - unfold join. destruct (iter v) as [items|] eqn:Hi; simpl; [|done].
    destruct (join_items 0 items) as [l|] eqn:Hj; simpl; [|done].
    intros [= <-]. right. exists v, l.
    apply join_items_Ok in Hj as ->. done.
  - by destruct v.
Qed.

Lemma pop_image_path_Ok st image_path :
  (pop_image_path st).1 = Ok image_path →
  (kwargs st !! "image_path" = None ∧ image_path = VStr ".") ∨
  (kwargs st !! "image_path" = Some image_path ∧
   is_basestring image_path = true).
Proof.
  unfold pop_image_path, try_except_else, throw, lift.
  rewrite kwargs_pop_run.
  destruct (kwargs st !! "image_path") as [v|]; simpl;
    [|intros [= <-]; by left].
  destruct (is_basestring v) eqn:Hb; simpl; [|done].
  intros [= <-]. by right.
Qed.

(** X10: an option that is not given takes its default: output_style the
    flag of "nested", include_paths the empty string, image_path ".". *)
Theorem options_defaults
    (kw : gmap string value) (output_style include_paths image_path : value) :
  options kw = Ok (output_style, include_paths, image_path) →
  (kw !! "output_style" = None →
     ∃ flag, getitem OUTPUT_STYLES "nested" = Some flag ∧
       output_style = VInt flag) ∧
  (kw !! "include_paths" = None → include_paths = VStr "") ∧
  (kw !! "image_path" = None → image_path = VStr ".").
Proof.
  intros (Hs & Hi & Hp)%options_Ok. split_and!.
  - intros Hnone.
    apply pop_output_style_Ok in Hs
      as (name & flag & [[_ ->]|Hsome] & Hg & ->); [eauto|].
    simpl in Hsome. congruence.
  - intros Hnone.
    apply pop_include_paths_Ok in Hi as [[_ ->]|(v & l & Hsome & _)];
      [done|].
    simpl in Hsome. rewrite lookup_delete_ne in Hsome by done. congruence.
  - intros Hnone.
    apply pop_image_path_Ok in Hp as [[_ ->]|[Hsome _]]; [done|].
    simpl in Hsome. rewrite !lookup_delete_ne in Hsome by done. congruence.
Qed.

(** X11: when the options validate and include_paths is given, it is a
    Sequence whose items are all strings, and the include paths handed on
    are these items joined with ":"; the items of a str are its
    characters. *)
Theorem options_include_paths_joined
    (kw : gmap string value) (v output_style include_paths image_path : value) :
  options kw = Ok (output_style, include_paths, image_path) →
  kw !! "include_paths" = Some v →
  is_sequence v = true ∧
  ∃ l, iter v = Ok (VStr <$> l) ∧
    include_paths = VStr (String.concat ":" l).
Proof.
  intros (_ & Hi & _)%options_Ok Hv.
  apply pop_include_paths_Ok in Hi
    as [[Hnone _]|(v' & l & Hsome & Hseq & Hiter & ->)];
    simpl in *; rewrite lookup_delete_ne in * by done; simplify_eq.
  eauto.
Qed.

(** X12: when the options validate, a given output_style is a string that
    names a style, handed on as the flag OUTPUT_STYLES maps it to, and a
    given image_path is a string, handed on as it is. *)
Theorem options_style_and_image_path
    (kw : gmap string value) (output_style include_paths image_path : value) :
  options kw = Ok (output_style, include_paths, image_path) →
  (∀ v, kw !! "output_style" = Some v →
     ∃ name flag, v = VStr name ∧
       getitem OUTPUT_STYLES name = Some flag ∧ output_style = VInt flag) ∧
  (∀ v, kw !! "image_path" = Some v →
     is_basestring v = true ∧ image_path = v).
Proof.
  intros (Hs & _ & Hp)%options_Ok. split.
  - intros v Hv.
    apply pop_output_style_Ok in Hs
      as (name & flag & [[Hnone _]|Hsome] & Hg & ->);
      simpl in *; simplify_eq. eauto.
  - intros v Hv.
    apply pop_image_path_Ok in Hp as [[Hnone _]|[Hsome Hb]];
      simpl in *; rewrite !lookup_delete_ne in * by done; simplify_eq.
    done.
Qed.

(** *** The errors of the options *)

Lemma style_valid_run st :
  style_valid (kwargs st) = true →
  ∃ flag, (pop_output_style st).1 = Ok (VInt flag).
Proof.
  unfold style_valid, pop_output_style, try_except, try_except_else.
  rewrite bind_run, kwargs_pop_run.
  destruct (kwargs st !! "output_style") as [[| | |name| | | |]|]; simpl;
    try done.
  - intros Hin%bool_decide_eq_true.
    destruct (getitem_Some OUTPUT_STYLES name Hin) as [flag ->]. eauto.
  - intros _. destruct (getitem_Some OUTPUT_STYLES "nested") as [flag ->];
      [|eauto].
    rewrite OUTPUT_STYLES_names. compute_done.
Qed.

Lemma include_paths_valid_run st :
  include_paths_valid (kwargs st) = true →
  ∃ s, (pop_include_paths st).1 = Ok (VStr s).
Proof.
  unfold include_paths_valid, pop_include_paths, try_except_else, lift.
  rewrite kwargs_pop_run.
  destruct (kwargs st !! "include_paths") as [v|]; simpl; [|eauto].
  intros [-> Hitems]%andb_true_iff. simpl. unfold join.
  destruct (iter v) as [items|]; [|done].
  apply forallb_basestring in Hitems as [l ->]. simpl.
  rewrite join_items_strings. simpl. eauto.
Qed.

(** X6: with one mode keyword, an output_style that is not a string makes
    compile raise a TypeError that shows its repr, before it looks at
    include_paths and image_path, and without a native call. *)
Theorem compile_output_style_not_text
    (kw : gmap string value) (m : string) (v : value) :
  present_modes kw = [m] →
  kw !! "output_style" = Some v →
  is_basestring v = false →
  compile kw
  = (Raise (Exn TypeError
              (VStr ("output_style must be a string, not " +:+ repr v))), []).
Proof.
  intros Hm Hv Hb.
  rewrite (compile_one_mode set_iter_perm kw m Hm), options_run.
  unfold pop_output_style at 1, try_except, try_except_else.
  rewrite bind_run, kwargs_pop_run. simpl. rewrite Hv.
  by destruct v.
Qed.

(** X7: with one mode keyword and a valid output_style, an include_paths
    that is not a Sequence (None, a number, a set, a dictionary) makes
    compile raise a TypeError that shows its repr, without a native call. *)
Theorem compile_include_paths_not_sequence
    (kw : gmap string value) (m : string) (v : value) :
  present_modes kw = [m] →
  style_valid kw = true →
  kw !! "include_paths" = Some v →
  is_sequence v = false →
  compile kw
  = (Raise (Exn TypeError
              (VStr ("include_paths must be a sequence of strings, or " +:+
                     "a colon-separated string, not " +:+ repr v))), []).
Proof.
  intros Hm Hs Hv Hseq.
  rewrite (compile_one_mode set_iter_perm kw m Hm), options_run.
  destruct (style_valid_run (State kw []) Hs) as [flag ->]. simpl.
  unfold pop_include_paths at 1, try_except_else.
  rewrite kwargs_pop_run. simpl. rewrite lookup_delete_ne, Hv by done.
  simpl. rewrite Hseq. by destruct v.
Qed.

(** X8: with one mode keyword and a valid output_style, an include_paths
    that is a list or a tuple holding an item that is not a string makes
    compile raise a TypeError, without a native call. *)
Theorem compile_include_paths_item_not_text
    (kw : gmap string value) (m : string)
    (k : seq_kind) (items : list value) (v : value) :
  present_modes kw = [m] →
  style_valid kw = true →
  kw !! "include_paths" = Some (sequence k items) →
  v ∈ items → is_basestring v = false →
  ∃ e, compile kw = (Raise e, []) ∧ exn_cls e = TypeError.
Proof.
  intros Hm Hs Hv Hin Hb.
  rewrite (compile_one_mode set_iter_perm kw m Hm), options_run.
  destruct (style_valid_run (State kw []) Hs) as [flag ->]. simpl.
  unfold pop_include_paths at 1, try_except_else.
  rewrite kwargs_pop_run. simpl. rewrite lookup_delete_ne, Hv by done.
  destruct (join_items_non_string 0 items v Hin Hb) as (e & He & Hc).
  exists e. split; [|done].
  destruct k; simpl; unfold lift, join; simpl; by rewrite He.
Qed.

(** X9: with one mode keyword, a valid output_style and a valid
    include_paths, an image_path that is not a string makes compile raise a
    TypeError that shows its repr, without a native call. *)
Theorem compile_image_path_not_text
    (kw : gmap string value) (m : string) (v : value) :
  present_modes kw = [m] →
  style_valid kw = true →
  include_paths_valid kw = true →
  kw !! "image_path" = Some v →
  is_basestring v = false →
  compile kw
  = (Raise (Exn TypeError
              (VStr ("image_path must be a string, not " +:+ repr v))), []).
Proof.
  intros Hm Hs Hi Hv Hb.
  rewrite (compile_one_mode set_iter_perm kw m Hm), options_run.
  destruct (style_valid_run (State kw []) Hs) as [flag ->]. simpl.
  destruct (include_paths_valid_run (State (delete "output_style" kw) []))
    as [s ->].
  { unfold include_paths_valid in *. simpl.
    by rewrite lookup_delete_ne by done. }
  simpl. unfold pop_image_path at 1, try_except_else.
  rewrite kwargs_pop_run. simpl. rewrite !lookup_delete_ne, Hv by done.
  simpl. by rewrite Hb.
Qed.

(** *** What reaches the native entry points *)

(** X15: in string mode with valid options, the value of string goes,
    whatever it is, with the style flag, the include paths and the image
    path to the native string entry point, whose pair decides the result. *)
Theorem compile_string_forwards
    (kw : gmap string value) (string output_style include_paths image_path : value) :
  only_mode kw "string" string →
  options kw = Ok (output_style, include_paths, image_path) →
  compile kw
  = (result_of (compile_string string output_style include_paths image_path),
     [CompileString string output_style include_paths image_path]).
Proof.
  intros [Hm Hs] Hopt.
  rewrite (compile_one_mode set_iter_perm kw "string" Hm), Hopt.
  rewrite bind_run, (dispatch_string _ string); [done|].
  simpl. rewrite stripped_lookup; [done|compute_done].
Qed.

(** X16: in filename mode with valid options and a path that is a regular
    file, the path goes with the style flag, the include paths and the image
    path to the native file entry point, whose pair decides the result. *)
Theorem compile_filename_forwards
    (kw : gmap string value) (path output_style include_paths image_path : value) :
  only_mode kw "filename" path →
  options kw = Ok (output_style, include_paths, image_path) →
  isfile path = Ok true →
  compile kw
  = (result_of (compile_filename path output_style include_paths image_path),
     [CompileFilename path output_style include_paths image_path]).
Proof.
  intros [Hm Hs] Hopt Hfile.
  rewrite (compile_one_mode set_iter_perm kw "filename" Hm), Hopt.
  rewrite bind_run, (dispatch_filename _ path), Hfile; [done|].
  simpl. rewrite stripped_lookup; [done|compute_done].
Qed.

(** X17: in dirname mode with valid options, a dirname value that iterates
    over a number of items other than two raises exactly the ValueError
    "dirname must be a pair of (source_dir, output_dir)"; a value that
    cannot be iterated raises the TypeError of the interpreter, which the
    handler for ValueError lets through.  Neither makes a native call. *)
Theorem compile_dirname_errors
    (kw : gmap string value) (dirname output_style include_paths image_path : value) :
  only_mode kw "dirname" dirname →
  options kw = Ok (output_style, include_paths, image_path) →
  (∀ items, iter dirname = Ok items → length items ≠ 2%nat →
     compile kw
     = (Raise (Exn ValueError
                 (VStr "dirname must be a pair of (source_dir, output_dir)")),
        [])) ∧
  (∀ e, iter dirname = Raise e →
     compile kw = (Raise e, []) ∧ exn_cls e = TypeError).
Proof.
  intros [Hm Hd] Hopt.
  rewrite (compile_one_mode set_iter_perm kw "dirname" Hm), Hopt.
  rewrite bind_run, (dispatch_dirname _ dirname)
    by (simpl; rewrite stripped_lookup; [done|compute_done]).
  split.
  - intros items Hi Hlen. unfold unpack2. rewrite Hi. simpl.
    by destruct items as [|a [|b [|c items]]].
  - intros e Hi. unfold unpack2. rewrite Hi. simpl.
    unfold iter, raise in Hi. by destruct dirname; simplify_eq.
Qed.

Lemma result_of_Raise p e :
  result_of p = Raise e → exn_cls e = CompileError.
Proof. destruct p as [[] v]; simpl; [done|]. by intros [= <-]. Qed.

Lemma result_of_Ok p v : result_of p = Ok v → p = (true, v).
Proof. destruct p as [[] v']; simpl; [|done]. by intros [= <-]. Qed.

Lemma MODES_cases m :
  m ∈ MODES → m = "string" ∨ m = "filename" ∨ m = "dirname".
Proof.
  unfold MODES. intros Hm.
  repeat (apply elem_of_cons in Hm as [->|Hm]; [auto|]).
  by apply elem_of_nil in Hm.
Qed.

(** A call that does not name exactly one mode makes no native call. *)
Lemma compile_without_mode kw :
  length (present_modes kw) ≠ 1%nat →
  ∃ msg, compile kw = (Raise (Exn TypeError (VStr msg)), []).
Proof.
  intros Hn.
  destruct (select_modes_error set_iter_perm (State kw []) Hn) as [msg Hmsg].
  exists msg. unfold compile, compile_body. by rewrite bind_run, Hmsg.
Qed.

Lemma present_modes_singleton kw :
  length (present_modes kw) = 1%nat → ∃ m, present_modes kw = [m].
Proof.
  destruct (present_modes kw) as [|m [|m' l]]; simpl; try done. eauto.
Qed.

(** X13: a native call that compile makes is the one of the single mode
    keyword of the call, and it carries the validated options: the string
    entry point gets the value of string, the file entry point a path for
    which isfile answered true, the directory entry point the two items of
    dirname. *)
Theorem compile_calls_carry_options
    (kw : gmap string value) (r : result value)
    (made : list native_call) (c : native_call) :
  compile kw = (r, made) →
  c ∈ made →
  ∃ output_style include_paths image_path,
    options kw = Ok (output_style, include_paths, image_path) ∧
    ((∃ string,
        only_mode kw "string" string ∧
        c = CompileString string output_style include_paths image_path) ∨
     (∃ path,
        only_mode kw "filename" path ∧ isfile path = Ok true ∧
        c = CompileFilename path output_style include_paths image_path) ∨
     (∃ dirname search_path output_path,
        only_mode kw "dirname" dirname ∧
        iter dirname = Ok [search_path; output_path] ∧
        c = CompileDirname search_path output_path
              output_style include_paths image_path)).
Proof.
  intros Hrun Hc.
  destruct (decide (length (present_modes kw) = 1%nat)) as [Hone|Hnot];
    [|destruct (compile_without_mode kw Hnot) as [msg Hmsg];
      rewrite Hmsg in Hrun; simplify_eq; by apply elem_of_nil in Hc].
  destruct (present_modes_singleton kw Hone) as [m Hm].
  destruct (present_modes_one kw m Hm) as [Hin [v Hv]].
  rewrite (compile_one_mode set_iter_perm kw m Hm) in Hrun.
  destruct (options kw) as [[[sty inc] img]|e];
    [|simplify_eq; by apply elem_of_nil in Hc].
  exists sty, inc, img. split; [done|].
  assert (stripped kw !! m = Some v) as Hv'
    by (by rewrite stripped_lookup).
  destruct (MODES_cases m Hin) as [->|[->| ->]].
  - left. exists v.
    rewrite bind_run, (dispatch_string _ v) in Hrun by done.
    simpl in Hrun. simplify_eq.
    apply list_elem_of_singleton in Hc as ->. by repeat split.
  - right. left. exists v.
    rewrite bind_run, (dispatch_filename _ v) in Hrun by done.
    destruct (isfile v) as [[]|]; simpl in Hrun; simplify_eq;
      try (by apply elem_of_nil in Hc).
    apply list_elem_of_singleton in Hc as ->. by repeat split.
  - right. right. exists v.
    rewrite bind_run, (dispatch_dirname _ v) in Hrun by done.
    destruct (unpack2 v) as [[a b]|] eqn:Hu; simpl in Hrun; simplify_eq;
      try (by apply elem_of_nil in Hc).
    apply list_elem_of_singleton in Hc as ->.
    exists a, b. apply unpack2_Ok in Hu. by repeat split.
Qed.

(** Membership of a class in [compile_classes]. *)
Ltac class_in :=
  unfold compile_classes; simpl;
  solve [repeat first [apply list_elem_of_here | apply list_elem_of_further]].

(** X18: an exception that compile raises is a TypeError, a ValueError, a
    CompileError or an IOError, or else it is the one isfile raised on the
    path of filename mode; the KeyError of a kwargs.pop never comes out. *)
Theorem compile_exception_classes
    (kw : gmap string value) (e : exn) (made : list native_call) :
  compile kw = (Raise e, made) →
  exn_cls e ∈ compile_classes ∨
  ∃ path, only_mode kw "filename" path ∧ isfile path = Raise e.
Proof.
  intros Hrun.
  destruct (decide (length (present_modes kw) = 1%nat)) as [Hone|Hnot];
    [|destruct (compile_without_mode kw Hnot) as [msg Hmsg];
      rewrite Hmsg in Hrun; simplify_eq; left; class_in].
  destruct (present_modes_singleton kw Hone) as [m Hm].
  destruct (present_modes_one kw m Hm) as [Hin [v Hv]].
  rewrite (compile_one_mode set_iter_perm kw m Hm) in Hrun.
  destruct (options kw) as [[[sty inc] img]|e0] eqn:Hopt.
  2:{ simplify_eq. left.
      destruct (options_error OUTPUT_STYLES_names _ _ Hopt) as [-> | ->];
        class_in. }
  assert (stripped kw !! m = Some v) as Hv'
    by (by rewrite stripped_lookup).
  assert (∀ p, result_of p = Raise e → exn_cls e ∈ compile_classes) as Hres.
  { intros p ->%result_of_Raise. class_in. }
  destruct (MODES_cases m Hin) as [->|[->| ->]].
  - rewrite bind_run, (dispatch_string _ v) in Hrun by done.
    simpl in Hrun. unfold lift in Hrun. simplify_eq. left. by eapply Hres.
  - rewrite bind_run, (dispatch_filename _ v) in Hrun by done.
    destruct (isfile v) as [[]|e1] eqn:Hfile; simpl in Hrun;
      unfold lift in Hrun; simplify_eq.
    + left. by eapply Hres.
    + left. class_in.
    + right. exists v. by repeat split.
  - rewrite bind_run, (dispatch_dirname _ v) in Hrun by done.
    destruct (unpack2 v) as [[a b]|e1] eqn:Hu; simpl in Hrun;
      unfold lift in Hrun; simplify_eq; left; [by eapply Hres|].
    apply unpack2_Raise in Hu as [[_ Hc]|(items & _ & _ & Hc)];
      rewrite Hc; simpl; rewrite ?Hc; class_in.
Qed.

End CompileMore.

(** The run of [compile] ends without a native call and with an exception, or
    with one native call and what its pair decides. *)
Lemma compile_shape `{!Imports} (kw : gmap string value) :
  (∃ e, compile kw = (Raise e, [])) ∨
  (∃ c, compile kw = (result_of (native_result c), [c])).
Proof.
  unfold compile, compile_body, compile_from_include_paths.
  rewrite bind_run.
  pose proof (select_modes_state (State kw [])) as Hst.
  destruct (select_modes (State kw [])) as [[modes|e] st];
    simpl in Hst; subst st; [|left; eauto].
  rewrite bind_run.
  pose proof (pop_output_style_state (State kw [])) as Hst.
  destruct (pop_output_style (State kw [])) as [[sty|e] st];
    simpl in Hst; subst st; [|left; eauto].
  rewrite bind_run.
  lazymatch goal with |- context [pop_include_paths ?s] =>
    pose proof (pop_include_paths_state s) as Hst;
    destruct (pop_include_paths s) as [[inc|e] st] end;
    simpl in Hst; subst st; [|left; eauto].
  rewrite bind_run.
  lazymatch goal with |- context [pop_image_path ?s] =>
    pose proof (pop_image_path_state s) as Hst;
    destruct (pop_image_path s) as [[img|e] st] end;
    simpl in Hst; subst st; [|left; eauto].
  rewrite bind_run.
  lazymatch goal with |- context [dispatch ?ms ?a1 ?a2 ?a3 ?s] =>
    destruct (dispatch_shape ms a1 a2 a3 s)
      as [(e & st' & -> & Hc)|(c & st' & -> & Hc)] end;
    simpl in Hc; unfold lift; simpl; rewrite Hc; [left; eauto|right; eauto].
Qed.

(** X14: compile returns a value only after one native call, and the value
    is the payload that this entry point gave with a true flag; no
    validation step returns by itself. *)
Theorem compile_returns_native_payload `{!Imports}
    (kw : gmap string value) (v : value) (made : list native_call) :
  compile kw = (Ok v, made) →
  ∃ c, made = [c] ∧ native_result c = (true, v).
Proof.
  intros Hrun. destruct (compile_shape kw) as [[e He]|[c Hc]].
  - rewrite He in Hrun. simplify_eq.
  - rewrite Hc in Hrun. exists c.
    assert (result_of (native_result c) = Ok v) as Hv by congruence.
    apply result_of_Ok in Hv. split; congruence.
Qed.

(** X19: compile reads the six keywords it knows and nothing else: two
    calls whose keyword arguments agree on these six return or raise the
    same and make the same native calls. *)
Theorem compile_reads_recognized_only `{!Imports}
    (kw1 kw2 : gmap string value) :
  (∀ s, set_iter s ≡ₚ s) →
  (∀ key, key ∈ recognized → kw1 !! key = kw2 !! key) →
  compile kw1 = compile kw2.
Proof.
  intros Hperm Hkw. unfold compile.
  destruct (insensitive_compile_body Hperm (State kw1 []) (State kw2 []))
    as [Hr [Hc _]]; [by split|].
  destruct (compile_body (State kw1 [])) as [r1 st1].
  destruct (compile_body (State kw2 [])) as [r2 st2].
  simpl in *. by rewrite Hr, Hc.
Qed.

(** ** The further properties at work in the [Demo] environment *)

Lemma and_join_iterable_witness :
  and_join (VStr "ab") = Ok (VStr "a, and b").
Proof.
  apply (and_join_iterable (VStr "ab") ["a"] "b"); [discriminate|reflexivity].
Defined.

Lemma and_join_non_string_items_witness :
  ∃ e, and_join (VList [VStr "a"; VInt 1]) = Raise e ∧ exn_cls e = TypeError.
Proof.
  apply (proj2 (and_join_non_string_items AsList) [VStr "a"; VInt 1] (VInt 1)).
  - simpl. lia.
  - apply list_elem_of_further, list_elem_of_here.
  - reflexivity.
Defined.


Lemma compile_exclusive_modes_message_witness :
  ∃ front final,
    front ++ [final]
    ≡ₚ present_modes (Demo.kw [("string", VStr "a { b }");
                               ("dirname", VTuple [VStr "sass"; VStr "css"])]) ∧
    Demo.run (Demo.kw [("string", VStr "a { b }");
                       ("dirname", VTuple [VStr "sass"; VStr "css"])])
    = (Raise (Exn TypeError
                (VStr (conjunction front final +:+
                       " are exclusive each other; cannot be used at a time"))),
       []).
Proof.
  apply (@compile_exclusive_modes_message Demo.imports (λ s, reflexivity _)).
  vm_compute. lia.
Defined.

Lemma compile_output_style_not_text_witness :
  Demo.run (Demo.kw [("string", VStr "a { b }"); ("output_style", VInt 3)])
  = (Raise (Exn TypeError (VStr "output_style must be a string, not <int>")),
     []).
Proof.
  apply (@compile_output_style_not_text Demo.imports (λ s, reflexivity _)
           (Demo.kw [("string", VStr "a { b }"); ("output_style", VInt 3)])
           "string" (VInt 3)).
  - vm_compute. reflexivity.
  - vm_compute. reflexivity.
  - reflexivity.
Defined.

Lemma compile_include_paths_not_sequence_witness :
  Demo.run (Demo.kw [("string", VStr "a { b }"); ("include_paths", VNone)])
  = (Raise (Exn TypeError
              (VStr ("include_paths must be a sequence of strings, or " +:+
                     "a colon-separated string, not <NoneType>"))), []).
Proof.
  apply (@compile_include_paths_not_sequence Demo.imports
           (λ s, reflexivity _) (reflexivity _)
           (Demo.kw [("string", VStr "a { b }"); ("include_paths", VNone)])
           "string" VNone).
  - vm_compute. reflexivity.
  - vm_compute. reflexivity.
  - vm_compute. reflexivity.
  - reflexivity.
Defined.

Lemma compile_include_paths_item_not_text_witness :
  ∃ e,
    Demo.run (Demo.kw [("string", VStr "a { b }");
                       ("include_paths", VList [VStr "lib"; VInt 1])])
    = (Raise e, []) ∧ exn_cls e = TypeError.
Proof.
  apply (@compile_include_paths_item_not_text Demo.imports
           (λ s, reflexivity _) (reflexivity _)
           (Demo.kw [("string", VStr "a { b }");
                     ("include_paths", VList [VStr "lib"; VInt 1])])
           "string" AsList [VStr "lib"; VInt 1] (VInt 1)).
  - vm_compute. reflexivity.
  - vm_compute. reflexivity.
  - vm_compute. reflexivity.
  - apply list_elem_of_further, list_elem_of_here.
  - reflexivity.
Defined.

Lemma compile_image_path_not_text_witness :
  Demo.run (Demo.kw [("string", VStr "a { b }"); ("image_path", VInt 0)])
  = (Raise (Exn TypeError (VStr "image_path must be a string, not <int>")),
     []).
Proof.
  apply (@compile_image_path_not_text Demo.imports
           (λ s, reflexivity _) (reflexivity _)
           (Demo.kw [("string", VStr "a { b }"); ("image_path", VInt 0)])
           "string" (VInt 0)).
  - vm_compute. reflexivity.
  - vm_compute. reflexivity.
  - vm_compute. reflexivity.
  - vm_compute. reflexivity.
  - reflexivity.
Defined.

Lemma options_defaults_witness :
  @options Demo.imports (Demo.kw [("string", VStr "a { b }")])
  = Ok (VInt 0, VStr "", VStr ".") ∧
  ((Demo.kw [("string", VStr "a { b }")]) !! "output_style" = None →
     ∃ flag, getitem Demo.styles "nested" = Some flag ∧ VInt 0 = VInt flag) ∧
  ((Demo.kw [("string", VStr "a { b }")]) !! "include_paths" = None →
     VStr "" = VStr "") ∧
  ((Demo.kw [("string", VStr "a { b }")]) !! "image_path" = None →
     VStr "." = VStr ".").
Proof.
  split; [vm_compute; reflexivity|].
  apply (@options_defaults Demo.imports
           (Demo.kw [("string", VStr "a { b }")])
           (VInt 0) (VStr "") (VStr ".")).
  vm_compute. reflexivity.
Defined.

Lemma options_include_paths_joined_witness :
  is_sequence (VTuple [VStr "lib"; VStr "vendor"]) = true ∧
  ∃ l, iter (VTuple [VStr "lib"; VStr "vendor"]) = Ok (VStr <$> l) ∧
    VStr "lib:vendor" = VStr (String.concat ":" l).
Proof.
  apply (@options_include_paths_joined Demo.imports
           (Demo.kw [("string", VStr "a { b }");
                     ("include_paths", VTuple [VStr "lib"; VStr "vendor"])])
           (VTuple [VStr "lib"; VStr "vendor"])
           (VInt 0) (VStr "lib:vendor") (VStr ".")).
  - vm_compute. reflexivity.
  - vm_compute. reflexivity.
Defined.

Lemma options_style_and_image_path_witness :
  @options Demo.imports
    (Demo.kw [("string", VStr "a { b }"); ("output_style", VStr "compressed");
              ("image_path", VStr "img")])
  = Ok (VInt 3, VStr "", VStr "img") ∧
  (∀ v, (Demo.kw [("string", VStr "a { b }");
                  ("output_style", VStr "compressed");
                  ("image_path", VStr "img")]) !! "output_style" = Some v →
     ∃ name flag, v = VStr name ∧
       getitem Demo.styles name = Some flag ∧ VInt 3 = VInt flag) ∧
  (∀ v, (Demo.kw [("string", VStr "a { b }");
                  ("output_style", VStr "compressed");
                  ("image_path", VStr "img")]) !! "image_path" = Some v →
     is_basestring v = true ∧ VStr "img" = v).
Proof.
  split; [vm_compute; reflexivity|].
  apply (@options_style_and_image_path Demo.imports
           (Demo.kw [("string", VStr "a { b }");
                     ("output_style", VStr "compressed");
                     ("image_path", VStr "img")])
           (VInt 3) (VStr "") (VStr "img")).
  vm_compute. reflexivity.
Defined.

Lemma compile_calls_carry_options_witness :
  ∃ output_style include_paths image_path,
    @options Demo.imports (Demo.kw [("filename", VStr "a.scss")])
    = Ok (output_style, include_paths, image_path) ∧
    ((∃ string,
        only_mode (Demo.kw [("filename", VStr "a.scss")]) "string" string ∧
        CompileFilename (VStr "a.scss") (VInt 0) (VStr "") (VStr ".")
        = CompileString string output_style include_paths image_path) ∨
     (∃ path,
        only_mode (Demo.kw [("filename", VStr "a.scss")]) "filename" path ∧
        Demo.one_file path = Ok true ∧
        CompileFilename (VStr "a.scss") (VInt 0) (VStr "") (VStr ".")
        = CompileFilename path output_style include_paths image_path) ∨
     (∃ dirname search_path output_path,
        only_mode (Demo.kw [("filename", VStr "a.scss")]) "dirname" dirname ∧
        iter dirname = Ok [search_path; output_path] ∧
        CompileFilename (VStr "a.scss") (VInt 0) (VStr "") (VStr ".")
        = CompileDirname search_path output_path
            output_style include_paths image_path)).
Proof.
  apply (@compile_calls_carry_options Demo.imports (λ s, reflexivity _)
           (Demo.kw [("filename", VStr "a.scss")])
           (Ok (VStr "a b { color: blue; }"))
           [CompileFilename (VStr "a.scss") (VInt 0) (VStr "") (VStr ".")]).
  - vm_compute. reflexivity.
  - apply list_elem_of_here.
Defined.

Lemma compile_returns_native_payload_witness :
  ∃ c,
    [CompileString (VStr "a { b { color: blue; } }")
       (VInt 0) (VStr "") (VStr ".")] = [c] ∧
    @native_result Demo.imports c = (true, VStr "a b { color: blue; }").
Proof.
  apply (@compile_returns_native_payload Demo.imports
           (Demo.kw [("string", VStr "a { b { color: blue; } }")])).
  vm_compute. reflexivity.
Defined.

Lemma compile_string_forwards_witness :
  Demo.run (Demo.kw [("string", VInt 7); ("output_style", VStr "expanded")])
  = (Raise (Exn CompileError (VStr "error: unexpected token")),
     [CompileString (VInt 7) (VInt 1) (VStr "") (VStr ".")]).
Proof.
  apply (@compile_string_forwards Demo.imports (λ s, reflexivity _)
           (Demo.kw [("string", VInt 7); ("output_style", VStr "expanded")])
           (VInt 7) (VInt 1) (VStr "") (VStr ".")).
  - split; vm_compute; reflexivity.
  - vm_compute. reflexivity.
Defined.

Lemma compile_filename_forwards_witness :
  Demo.run (Demo.kw [("filename", VStr "a.scss"); ("image_path", VStr "img")])
  = (Ok (VStr "a b { color: blue; }"),
     [CompileFilename (VStr "a.scss") (VInt 0) (VStr "") (VStr "img")]).
Proof.
  apply (@compile_filename_forwards Demo.imports (λ s, reflexivity _)
           (Demo.kw [("filename", VStr "a.scss"); ("image_path", VStr "img")])
           (VStr "a.scss") (VInt 0) (VStr "") (VStr "img")).
  - split; vm_compute; reflexivity.
  - vm_compute. reflexivity.
  - reflexivity.
Defined.

Lemma compile_dirname_errors_witness :
  Demo.run (Demo.kw [("dirname", VList [VStr "a"; VStr "b"; VStr "c"])])
  = (Raise (Exn ValueError
              (VStr "dirname must be a pair of (source_dir, output_dir)")),
     []).
Proof.
  apply (proj1 (@compile_dirname_errors Demo.imports (λ s, reflexivity _)
                  (Demo.kw [("dirname", VList [VStr "a"; VStr "b"; VStr "c"])])
                  (VList [VStr "a"; VStr "b"; VStr "c"])
                  (VInt 0) (VStr "") (VStr ".")
                  (conj (reflexivity _) (reflexivity _)) (reflexivity _))
           [VStr "a"; VStr "b"; VStr "c"]).
  - reflexivity.
  - discriminate.
Defined.

Lemma compile_exception_classes_witness :
  IOError ∈ compile_classes ∨
  ∃ path,
    only_mode (Demo.kw [("filename", VStr "missing.scss")]) "filename" path ∧
    Demo.one_file path
    = Raise (Exn IOError (VStr "'missing.scss' seems not a file")).
Proof.
  apply (@compile_exception_classes Demo.imports
           (λ s, reflexivity _) (reflexivity _)
           (Demo.kw [("filename", VStr "missing.scss")])
           (Exn IOError (VStr "'missing.scss' seems not a file")) []).
  vm_compute. reflexivity.
Defined.

Lemma compile_reads_recognized_only_witness :
  Demo.run (Demo.kw [("string", VStr "a { b }"); ("precision", VInt 5)])
  = Demo.run (Demo.kw [("string", VStr "a { b }"); ("source_map", VNone);
                       ("verbose", VBool true)]).
Proof.
  apply (@compile_reads_recognized_only Demo.imports).
  - intros s. reflexivity.
  - intros key Hkey. unfold recognized in Hkey.
    repeat (apply elem_of_cons in Hkey as [->|Hkey]; [reflexivity|]).
    by apply elem_of_nil in Hkey.
Defined.
